(** * IMP front end and virtual machine: a shallow embedding

    The lexer ([lexer.cpp]), the recursive-descent parser ([parser.cpp],
    [ast.h]), the bytecode interpreter ([interp.cpp]) and the host
    primitives ([runtime.cpp]) are transcribed as Rocq functions.  C++
    exceptions and undefined behaviour are outcomes of an error monad;
    recursion that the C++ code performs on the call stack is bounded by a
    fuel argument whose exhaustion is a separate outcome. *)

From Stdlib Require Import List String Ascii Bool Arith ZArith Lia.
From Stdlib Require Import Decimal DecimalString.
Import ListNotations.

Local Open Scope string_scope.
Local Open Scope nat_scope.

(* ------------------------------------------------------------------------- *)
(** ** Outcomes *)

(** Source location, as printed by [FormatMessage]. *)
Record Location := mkLocation { Name : string; Line : nat; Column : nat }.

(** What a call of the front end can end in: a value, one of the two
    exception classes thrown by [Lexer::Error] and [Parser::Error], an
    execution the C++ standard leaves undefined, or the recursion bound of
    the model. *)
Inductive result (A : Type) : Type :=
| Ok (a : A)
| LexerError (loc : Location) (msg : string)
| ParserError (loc : Location) (msg : string)
| Undefined
| OutOfFuel.

Arguments Ok {A} a.
Arguments LexerError {A} loc msg.
Arguments ParserError {A} loc msg.
Arguments Undefined {A}.
Arguments OutOfFuel {A}.

Definition bind {A B : Type} (r : result A) (k : A -> result B) : result B :=
  match r with
  | Ok a => k a
  | LexerError loc msg => LexerError loc msg
  | ParserError loc msg => ParserError loc msg
  | Undefined => Undefined
  | OutOfFuel => OutOfFuel
  end.

(** Whether an outcome is the recursion bound of the model. *)
Definition out_of_fuel {A : Type} (r : result A) : bool :=
  match r with OutOfFuel => true | _ => false end.

(** [within r1 r2]: the outcome [r1], obtained under some recursion bound,
    is either that bound or the outcome [r2]. *)
Definition within {A : Type} (r1 r2 : result A) : Prop :=
  r1 = OutOfFuel \/ r1 = r2.

Notation "'let*' x ':=' c 'in' k" := (bind c (fun x => k))
  (at level 10, x pattern, c at level 100, k at level 200).

(** Decimal rendering of [operator<<] on unsigned integers. *)
Definition dec_of_nat (n : nat) : string := NilZero.string_of_uint (Nat.to_uint n).
Definition dec_of_N (n : N) : string := NilZero.string_of_uint (N.to_uint n).

(** [FormatMessage] of lexer.cpp and parser.cpp: the [what()] text of the
    two exception classes. *)
Definition FormatMessage (loc : Location) (msg : string) : string :=
  "[" ++ Name loc ++ ":" ++ dec_of_nat (Line loc) ++ ":"
      ++ dec_of_nat (Column loc) ++ "] " ++ msg.

(* ------------------------------------------------------------------------- *)
(** ** Characters *)

Definition NUL : ascii := ascii_of_nat 0.
Definition NL : ascii := ascii_of_nat 10.
Definition DQUOTE : ascii := ascii_of_nat 34.
(** [char] value of [traits::eof()], returned by [peek] at the end. *)
Definition EOFCHAR : ascii := ascii_of_nat 255.

Definition between (lo hi : nat) (c : ascii) : bool :=
  (lo <=? nat_of_ascii c) && (nat_of_ascii c <=? hi).

(** <cctype> in the "C" locale. *)
Definition isspace (c : ascii) : bool := between 9 13 c || (nat_of_ascii c =? 32).
Definition isdigit (c : ascii) : bool := between 48 57 c.
Definition isalpha (c : ascii) : bool := between 65 90 c || between 97 122 c.

Definition IsIdentStart (chr : ascii) : bool :=
  (chr =? "_")%char || isalpha chr.

Definition IsIdentLetter (chr : ascii) : bool :=
  IsIdentStart chr || isdigit chr.

(** [word.push_back(chr)]. *)
Definition push_back (word : string) (chr : ascii) : string :=
  word ++ String chr EmptyString.

(* ------------------------------------------------------------------------- *)
(** ** Tokens *)

Module Token.

(** Modelled from the spec: lexer.h, which declares [Token::Kind], is not
    among the sources.  The enumerators are those that lexer.cpp prints
    and parser.cpp tests. *)
Inductive Kind : Set :=
| FUNC | RETURN | WHILE | LET | IF | ELSE | TRUE | FALSE
| LPAREN | RPAREN | LBRACE | RBRACE | COLON | SEMI | COMMA
| EQ | EQEQ | NEQ | LE | GR | LEQ | GREQ | BANG
| PLUS | INCR | MINUS | DECR | STAR | SLASH | MOD
| END | INT | STRING | IDENT.

Definition Kind_eqb (a b : Kind) : bool :=
  match a, b with
  | FUNC, FUNC | RETURN, RETURN | WHILE, WHILE | LET, LET | IF, IF
  | ELSE, ELSE | TRUE, TRUE | FALSE, FALSE | LPAREN, LPAREN
  | RPAREN, RPAREN | LBRACE, LBRACE | RBRACE, RBRACE | COLON, COLON
  | SEMI, SEMI | COMMA, COMMA | EQ, EQ | EQEQ, EQEQ | NEQ, NEQ | LE, LE
  | GR, GR | LEQ, LEQ | GREQ, GREQ | BANG, BANG | PLUS, PLUS | INCR, INCR
  | MINUS, MINUS | DECR, DECR | STAR, STAR | SLASH, SLASH | MOD, MOD
  | END, END | INT, INT | STRING, STRING | IDENT, IDENT => true
  | _, _ => false
  end.

(** The union [value_]: a 64-bit unsigned integer or an owned string. *)
Inductive Value : Set :=
| NoValue
| IntValue (v : Z)
| StringValue (s : string).

Record t : Set := mk { loc_ : Location; kind_ : Kind; value_ : Value }.

Definition GetKind (tk : t) : Kind := kind_ tk.
Definition GetLocation (tk : t) : Location := loc_ tk.
Definition Is (tk : t) (k : Kind) : bool := Kind_eqb (kind_ tk) k.

(** [Token::Ident], [Token::String], [Token::Integer] of lexer.cpp. *)
Definition Ident (l : Location) (str : string) : t := mk l IDENT (StringValue str).
Definition String (l : Location) (str : string) : t := mk l STRING (StringValue str).
Definition Integer (l : Location) (intVal : Z) : t := mk l INT (IntValue intVal).

(** Modelled from the spec: the payload-free factories [Token::End],
    [Token::LParen], ... are defined in the absent lexer.h; each builds the
    token of its kind at the given location. *)
Definition Plain (k : Kind) (l : Location) : t := mk l k NoValue.
Definition End := Plain END.
Definition LParen := Plain LPAREN.
Definition RParen := Plain RPAREN.
Definition LBrace := Plain LBRACE.
Definition RBrace := Plain RBRACE.
Definition Colon := Plain COLON.
Definition Semi := Plain SEMI.
Definition Star := Plain STAR.
Definition Slash := Plain SLASH.
Definition Mod := Plain MOD.
Definition DEqual := Plain EQEQ.
Definition Equal := Plain EQ.
Definition Incr := Plain INCR.
Definition Plus := Plain PLUS.
Definition Decr := Plain DECR.
Definition Minus := Plain MINUS.
Definition Comma := Plain COMMA.
Definition Func := Plain FUNC.
Definition Return := Plain RETURN.
Definition While := Plain WHILE.
Definition Let := Plain LET.
Definition If := Plain IF.
Definition Else := Plain ELSE.

(** Modelled from the spec: the payload accessors of the absent lexer.h.
    Reading the member of the union that is not the active one has no
    defined result. *)
Definition GetIdent (tk : t) : result string :=
  match kind_ tk, value_ tk with
  | IDENT, StringValue s => Ok s
  | _, _ => Undefined
  end.
Definition GetString (tk : t) : result string :=
  match kind_ tk, value_ tk with
  | STRING, StringValue s => Ok s
  | _, _ => Undefined
  end.
Definition GetInteger (tk : t) : result Z :=
  match kind_ tk, value_ tk with
  | INT, IntValue v => Ok v
  | _, _ => Undefined
  end.

(** [operator<<(std::ostream &, Token::Kind)]: the kinds without a case
    fall out of the switch and print nothing. *)
Definition PrintKind (kind : Kind) : string :=
  match kind with
  | FUNC => "func" | RETURN => "return" | WHILE => "while" | LET => "let"
  | IF => "if" | ELSE => "else"
  | LPAREN => "(" | RPAREN => ")" | LBRACE => "{" | RBRACE => "}"
  | COLON => ":" | SEMI => ";" | EQ => "=" | EQEQ => "=="
  | GREQ => ">=" | LEQ => "<=" | NEQ => "!=" | COMMA => ","
  | PLUS => "+" | INCR => "++" | MINUS => "-" | DECR => "--"
  | STAR => "*" | SLASH => "/" | MOD => "%"
  | END => "END" | INT => "INT" | STRING => "STRING" | IDENT => "IDENT"
  | TRUE | FALSE | LE | GR | BANG => ""
  end.

(** [Token::Print]. *)
Definition Print (tk : t) : string :=
  PrintKind (kind_ tk) ++
  match kind_ tk, value_ tk with
  | INT, IntValue v => "(" ++ dec_of_N (Z.to_N v) ++ ")"
  | STRING, StringValue s =>
      "(" ++ String.String DQUOTE s ++ String.String DQUOTE ")"
  | IDENT, StringValue s => "(" ++ s ++ ")"
  | _, _ => ""
  end.

End Token.

(* ------------------------------------------------------------------------- *)
(** ** The input stream *)

(** [std::ifstream] as far as the lexer uses it: the characters not yet
    read and the [eofbit], which is set by the first read that finds no
    character. *)
Record ifstream := mkStream { rdbuf : list ascii; eofbit : bool }.

Definition eof (s : ifstream) : bool := eofbit s.

(** [is.get(c)]: stores the next character in [c] if there is one, otherwise
    leaves [c] alone and sets [eofbit]. *)
Definition get (s : ifstream) (c : ascii) : ascii * ifstream :=
  match rdbuf s with
  | x :: rest => (x, mkStream rest (eofbit s))
  | [] => (c, mkStream [] true)
  end.

(** [is.peek()], converted to [char]. *)
Definition peek (s : ifstream) : ascii * ifstream :=
  match rdbuf s with
  | x :: _ => (x, s)
  | [] => (EOFCHAR, mkStream [] true)
  end.

(* ------------------------------------------------------------------------- *)
(** ** The lexer *)

(** The data members of [class Lexer]. *)
Record Lexer := mkLexer {
  name_ : string;
  is_ : ifstream;
  chr_ : ascii;
  lineNo_ : nat;
  charNo_ : nat;
  tk_ : Token.t
}.

Definition set_chr (lx : Lexer) (c : ascii) : Lexer :=
  mkLexer (name_ lx) (is_ lx) c (lineNo_ lx) (charNo_ lx) (tk_ lx).
Definition set_tk (lx : Lexer) (tk : Token.t) : Lexer :=
  mkLexer (name_ lx) (is_ lx) (chr_ lx) (lineNo_ lx) (charNo_ lx) tk.

(** Modelled from the spec: [Lexer::GetLocation] and [Lexer::GetToken] are
    inline members of the absent lexer.h; the location is the rolling
    (file name, line, column) triple and the token is the one last
    produced. *)
Definition GetLocation (lx : Lexer) : Location :=
  mkLocation (name_ lx) (lineNo_ lx) (charNo_ lx).
Definition GetToken (lx : Lexer) : Token.t := tk_ lx.

(** [Lexer::NextChar]. *)
Definition NextChar (lx : Lexer) : Lexer :=
  if eof (is_ lx) then set_chr lx NUL
  else
    let (line, col) :=
      if (chr_ lx =? NL)%char then (S (lineNo_ lx), 1)
      else (lineNo_ lx, S (charNo_ lx)) in
    let (c, is') := get (is_ lx) (chr_ lx) in
    mkLexer (name_ lx) is' c line col (tk_ lx).

(** [Lexer::PeekChar]; [peek] may set the [eofbit] of the stream. *)
Definition PeekChar (lx : Lexer) : ascii * Lexer :=
  if eof (is_ lx) then (NUL, lx)
  else
    let (c, is') := peek (is_ lx) in
    (c, mkLexer (name_ lx) is' (chr_ lx) (lineNo_ lx) (charNo_ lx) (tk_ lx)).

(** [Lexer::Error]. *)
Definition Error {A : Type} (lx : Lexer) (msg : string) : result A :=
  LexerError (GetLocation lx) msg.

(** [while (isspace(chr_)) NextChar();] *)
Fixpoint skip_space (fuel : nat) (lx : Lexer) : result Lexer :=
  match fuel with
  | 0 => OutOfFuel
  | S fuel =>
      if isspace (chr_ lx) then skip_space fuel (NextChar lx) else Ok lx
  end.

(** The body of a string literal:
    [while (chr_ != QUOTE) { word.push_back(chr_); NextChar();
                             if (chr_ == NUL) Error(...); }] *)
Fixpoint scan_string (fuel : nat) (word : string) (lx : Lexer)
  : result (string * Lexer) :=
  match fuel with
  | 0 => OutOfFuel
  | S fuel =>
      if (chr_ lx =? DQUOTE)%char then Ok (word, lx)
      else
        let word := push_back word (chr_ lx) in
        let lx := NextChar lx in
        if (chr_ lx =? NUL)%char then Error lx "string not terminated"
        else scan_string fuel word lx
  end.

(** [do { word.push_back(chr_); NextChar(); } while (p(chr_));] with [p]
    one of [isdigit], [IsIdentLetter]. *)
Fixpoint scan_while (p : ascii -> bool) (fuel : nat) (word : string)
  (lx : Lexer) : result (string * Lexer) :=
  match fuel with
  | 0 => OutOfFuel
  | S fuel =>
      let word := push_back word (chr_ lx) in
      let lx := NextChar lx in
      if p (chr_ lx) then scan_while p fuel word lx else Ok (word, lx)
  end.

(** *** [std::stod] on a run of digits, and the conversion to [uint64_t]

    The doubles that arise are non-negative integers or overflow; a finite
    one is represented by its exact value. *)

Definition digit_value (c : ascii) : Z := Z.of_nat (nat_of_ascii c - 48).

(** The number a run of decimal digits denotes. *)
Fixpoint decimal_value (acc : Z) (word : string) : Z :=
  match word with
  | EmptyString => acc
  | String c rest => decimal_value (10 * acc + digit_value c)%Z rest
  end.

(** Round to nearest, ties to even, onto the 53-bit significand of an
    IEEE-754 binary64. *)
Definition round_binary64 (n : Z) : Z :=
  if (n <? 2 ^ 53)%Z then n
  else
    let e := (Z.log2 n - 52)%Z in
    let q := Z.shiftr n e in
    let r := (n - Z.shiftl q e)%Z in
    let half := (2 ^ (e - 1))%Z in
    let q' := if (half <? r)%Z || ((r =? half)%Z && Z.odd q)
              then (q + 1)%Z else q in
    Z.shiftl q' e.

(** What [std::stod] does with its argument. *)
Inductive stod_result : Set :=
| stod_value (d : Z)
| stod_out_of_range.

(** [std::stod(word)]: the correctly rounded double, or [std::out_of_range]
    when [strtod] reports ERANGE, which for an integer means that the
    rounded value exceeds the largest finite double. *)
Definition stod (word : string) : stod_result :=
  let d := round_binary64 (decimal_value 0 word) in
  if (2 ^ 1024 <=? d)%Z then stod_out_of_range else stod_value d.

(** The implicit conversion in [val = std::stod(word)] with
    [uint64_t val]: exact when the double is below 2^64, undefined
    otherwise. *)
Definition double_to_uint64 (d : Z) : result Z :=
  if (d <? 2 ^ 64)%Z then Ok d else Undefined.

(** The keyword test that follows an identifier-shaped word. *)
Definition classify_word (loc : Location) (word : string) : Token.t :=
  if (word =? "func")%string then Token.Func loc
  else if (word =? "return")%string then Token.Return loc
  else if (word =? "while")%string then Token.While loc
  else if (word =? "let")%string then Token.Let loc
  else if (word =? "if")%string then Token.If loc
  else if (word =? "else")%string then Token.Else loc
  else Token.Ident loc word.

(** Every loop of [Lexer::Next] calls [NextChar] once per iteration and
    stops at the NUL that follows the end of the stream, so this many
    iterations are never exceeded (see [Next_total]). *)
Definition scan_fuel (lx : Lexer) : nat := List.length (rdbuf (is_ lx)) + 3.

(** What the stream can still give to [NextChar]: its characters, and the
    one failing read that sets the [eofbit]. *)
Definition pending (lx : Lexer) : nat :=
  List.length (rdbuf (is_ lx)) + (if eofbit (is_ lx) then 0 else 1).

(** [Lexer::Next].  The returned reference is to [tk_] of the new state. *)
Definition Next (lx : Lexer) : result Lexer :=
  let* lx := skip_space (scan_fuel lx) lx in
  let loc := GetLocation lx in
  let c := chr_ lx in
  if (c =? NUL)%char then Ok (set_tk lx (Token.End loc))
  else if (c =? "(")%char then Ok (set_tk (NextChar lx) (Token.LParen loc))
  else if (c =? ")")%char then Ok (set_tk (NextChar lx) (Token.RParen loc))
  else if (c =? "{")%char then Ok (set_tk (NextChar lx) (Token.LBrace loc))
  else if (c =? "}")%char then Ok (set_tk (NextChar lx) (Token.RBrace loc))
  else if (c =? ":")%char then Ok (set_tk (NextChar lx) (Token.Colon loc))
  else if (c =? ";")%char then Ok (set_tk (NextChar lx) (Token.Semi loc))
  else if (c =? "*")%char then Ok (set_tk (NextChar lx) (Token.Star loc))
  else if (c =? "/")%char then Ok (set_tk (NextChar lx) (Token.Slash loc))
  else if (c =? "%")%char then Ok (set_tk (NextChar lx) (Token.Mod loc))
  else if (c =? "=")%char then
    let (p, lx) := PeekChar lx in
    if (p =? "=")%char
    then Ok (set_tk (NextChar (NextChar lx)) (Token.DEqual loc))
    else Ok (set_tk (NextChar lx) (Token.Equal loc))
  else if (c =? "+")%char then
    let (p, lx) := PeekChar lx in
    if (p =? "+")%char
    then Ok (set_tk (NextChar (NextChar lx)) (Token.Incr loc))
    else Ok (set_tk (NextChar lx) (Token.Plus loc))
  else if (c =? "-")%char then
    let (p, lx) := PeekChar lx in
    if (p =? "-")%char
    then Ok (set_tk (NextChar (NextChar lx)) (Token.Decr loc))
    else Ok (set_tk (NextChar lx) (Token.Minus loc))
  else if (c =? ",")%char then Ok (set_tk (NextChar lx) (Token.Comma loc))
  else if (c =? DQUOTE)%char then
    let lx := NextChar lx in
    let* (word, lx) := scan_string (scan_fuel lx) "" lx in
    let lx := NextChar lx in
    Ok (set_tk lx (Token.String loc word))
  else if isdigit c then
    let* (word, lx) := scan_while isdigit (scan_fuel lx) "" lx in
    match stod word with
    | stod_out_of_range => Error lx ("Integer literal out of range!" ++ String NL "")
    | stod_value d =>
        let* val := double_to_uint64 d in
        Ok (set_tk lx (Token.Integer loc val))
    end
  else if IsIdentStart c then
    let* (word, lx) := scan_while IsIdentLetter (scan_fuel lx) "" lx in
    Ok (set_tk lx (classify_word loc word))
  else Error lx ("unknown character '" ++ String c "" ++ "'").

(** The constructor [Lexer::Lexer(name)], applied to the members as
    initialised from the file: [NextChar(); Next();]. *)
Definition Lexer_ctor (fresh : Lexer) : result Lexer := Next (NextChar fresh).

(** Modelled from the spec: the default member initialisers are in the
    absent lexer.h.  The stream is the opened file; the initial character,
    line, column and token are left to the caller. *)
Definition Lexer_members (name : string) (contents : string)
  (chr0 : ascii) (line0 col0 : nat) (tk0 : Token.t) : Lexer :=
  mkLexer name (mkStream (list_ascii_of_string contents) false)
          chr0 line0 col0 tk0.

(** The lexer on a file with the given contents, with the members starting
    at NUL, line 1 and column 1. *)
Definition lexer_on (contents : string) : result Lexer :=
  Lexer_ctor (Lexer_members "a.imp" contents NUL 1 1
                (Token.End (mkLocation "a.imp" 1 1))).

(** All tokens up to END, for displaying what the lexer produces. *)
Fixpoint tokens_from (fuel : nat) (lx : Lexer)
  : result (list (Token.Kind * Token.Value)) :=
  match fuel with
  | 0 => OutOfFuel
  | S fuel =>
      let tk := GetToken lx in
      if Token.Is tk Token.END then Ok [(Token.kind_ tk, Token.value_ tk)]
      else
        let* lx := Next lx in
        let* rest := tokens_from fuel lx in
        Ok ((Token.kind_ tk, Token.value_ tk) :: rest)
  end.

Definition tokenize (contents : string) :=
  let* lx := lexer_on contents in tokens_from (String.length contents + 2) lx.

(** How far the lexer is from the end of its input: the characters left
    in the stream, one more while the [eofbit] of the stream is not set,
    and one more while the current character is not the NUL that ends the
    input. *)
Definition unread (lx : Lexer) : nat :=
  pending lx + (if (chr_ lx =? NUL)%char then 0 else 1).

(** The kinds of the relational operators and of the prefix [!], which
    the parser tests for. *)
Definition never_lexed : list Token.Kind :=
  [Token.LE; Token.GR; Token.LEQ; Token.GREQ; Token.NEQ; Token.BANG].

(** The kinds without payload that [Next] produces: the six keywords and
    the punctuation of its switch. *)
Definition reserved_kinds : list Token.Kind :=
  [Token.FUNC; Token.RETURN; Token.WHILE; Token.LET; Token.IF; Token.ELSE;
   Token.LPAREN; Token.RPAREN; Token.LBRACE; Token.RBRACE; Token.COLON;
   Token.SEMI; Token.COMMA; Token.EQ; Token.EQEQ; Token.PLUS; Token.INCR;
   Token.MINUS; Token.DECR; Token.STAR; Token.SLASH; Token.MOD].

(* ------------------------------------------------------------------------- *)
(** ** The syntax tree (ast.h) *)

Module BinaryExpr.
Inductive Kind : Set :=
| EQ | NEQ | MUL | DIV | MOD | LE | GR | LEQ | GREQ | ADD | SUB.
End BinaryExpr.

Module UnaryExpr.
Inductive Kind : Set := NOT | NEG.
End UnaryExpr.

#[local] Set Warnings "-register-all".

(** What is left of a [std::string_view] and of a reference once the
    string they refer to has been destroyed: a view still carries its
    length, its characters are gone; of a reference nothing can be read. *)
Record dangling_view : Set := view_of_destroyed { view_size : nat }.
Inductive dangling_reference : Set := reference_to_destroyed.

(** The subclasses of [Expr]; a [std::shared_ptr<Expr>] that is never null
    is the expression it points to.  The member [str_] of a [StringExpr] is
    a [std::string_view]: the parser makes it view the string of a local
    copy of the token, which the destructor of the copy deletes when
    [ParseTermExpr] returns. *)
Inductive Expr : Set :=
| IntExpr (val : Z)
| BoolExpr (val : bool)
| StringExpr (str_ : dangling_view)
| RefExpr (name : string)
| BinaryExpr (kind : BinaryExpr.Kind) (lhs rhs : Expr)
| UnaryExpr (kind : UnaryExpr.Kind) (operand : Expr)
| CallExpr (callee : Expr) (args : list Expr).

(** The subclasses of [Stmt].  The third member of [IfStmt] is the
    [std::shared_ptr<Stmt> fstmt_], which the parser sets to [nullptr]
    when there is no else clause: [None] is the null pointer. *)
Inductive Stmt : Set :=
| BlockStmt (body : list Stmt)
| WhileStmt (cond : Expr) (stmt : Stmt)
| ExprStmt (expr : Expr)
| ReturnStmt (expr : Expr)
| VarDeclStmt (name type : string) (expr : Expr)
| IfStmt (cond : Expr) (ifTrue : Stmt) (ifFalse : option Stmt).

(** [IfStmt::GetTrueBranchStmt], [IfStmt::GetFalseBranchStmt] and
    [IfStmt::GetCondition]: each returns [*ptr] without a test, so the
    false-branch accessor has no defined result on a null [fstmt_]. *)
Definition GetTrueBranchStmt (s : Stmt) : result Stmt :=
  match s with
  | IfStmt _ tstmt _ => Ok tstmt
  | _ => Undefined
  end.

Definition GetFalseBranchStmt (s : Stmt) : result Stmt :=
  match s with
  | IfStmt _ _ (Some fstmt) => Ok fstmt
  | _ => Undefined
  end.

Definition GetCondition (s : Stmt) : result Expr :=
  match s with
  | IfStmt cond _ _ => Ok cond
  | _ => Undefined
  end.

(* ------------------------------------------------------------------------- *)
(** ** The parser (parser.cpp)

    The parser owns a reference to the lexer and nothing else: a parsing
    function takes the lexer and returns the node with the lexer as its
    calls of [Next] left it. *)

Module Parser.

Definition Current (lx : Lexer) : Token.t := GetToken lx.

(** [Parser::Error]. *)
Definition Error {A : Type} (loc : Location) (msg : string) : result A :=
  ParserError loc msg.

(** [Parser::Check]; [os << tk] prints the token with [Token::Print]. *)
Definition Check (kind : Token.Kind) (lx : Lexer) : result Token.t :=
  let tk := Current lx in
  if negb (Token.Kind_eqb kind (Token.GetKind tk)) then
    Error (Token.GetLocation tk)
          ("unexpected " ++ Token.Print tk ++ ", expecting "
                         ++ Token.PrintKind kind)
  else Ok tk.

(** [Parser::Expect]. *)
Definition Expect (kind : Token.Kind) (lx : Lexer)
  : result (Token.t * Lexer) :=
  let* lx := Next lx in
  let* tk := Check kind lx in
  Ok (tk, lx).

Definition is_equality (kind : Token.Kind) : bool :=
  match kind with Token.EQEQ | Token.NEQ => true | _ => false end.
Definition is_comparison (kind : Token.Kind) : bool :=
  match kind with
  | Token.GR | Token.GREQ | Token.LE | Token.LEQ => true
  | _ => false
  end.
Definition is_addsub (kind : Token.Kind) : bool :=
  match kind with Token.PLUS | Token.MINUS => true | _ => false end.
Definition is_muldiv (kind : Token.Kind) : bool :=
  match kind with
  | Token.STAR | Token.SLASH | Token.MOD => true
  | _ => false
  end.

(** The expression grammar.  Every function spends one unit of [fuel] per
    call; the [_loop] functions are the [while] loops, one unit per
    iteration, entered with the operands accumulated so far. *)
Fixpoint ParseExpr (fuel : nat) (lx : Lexer) {struct fuel}
  : result (Expr * Lexer) :=
  match fuel with
  | 0 => OutOfFuel
  | S fuel => ParseEqualityExpr fuel lx
  end

with ParseTermExpr (fuel : nat) (lx : Lexer) {struct fuel}
  : result (Expr * Lexer) :=
  match fuel with
  | 0 => OutOfFuel
  | S fuel =>
      let tk := Current lx in
      match Token.GetKind tk with
      | Token.INT =>
          let* val := Token.GetInteger tk in
          let* lx := Next lx in
          Ok (IntExpr val, lx)
      | Token.TRUE =>
          let* lx := Next lx in
          Ok (BoolExpr true, lx)
      | Token.FALSE =>
          let* lx := Next lx in
          Ok (BoolExpr false, lx)
      | Token.STRING =>
          let* lx := Next lx in
          let* str := Token.GetString tk in
          Ok (StringExpr (view_of_destroyed (String.length str)), lx)
      | Token.IDENT =>
          let* ident := Token.GetIdent tk in
          let* lx := Next lx in
          Ok (RefExpr ident, lx)
      | _ =>
          if Token.Is (Current lx) Token.LPAREN then
            let* lx := Next lx in
            let* (expr, lx) := ParseExpr fuel lx in
            let* _ := Check Token.RPAREN lx in
            let* lx := Next lx in
            Ok (expr, lx)
          else
            Error (Token.GetLocation tk)
                  ("unexpected " ++ Token.Print tk ++ ", expecting term")
      end
  end

with ParseCallExpr (fuel : nat) (lx : Lexer) {struct fuel}
  : result (Expr * Lexer) :=
  match fuel with
  | 0 => OutOfFuel
  | S fuel =>
      let* (expr, lx) := ParseTermExpr fuel lx in
      if Token.Is (Current lx) Token.LPAREN
      then ParseArgumentList fuel expr lx
      else Ok (expr, lx)
  end

with ParseArgumentList (fuel : nat) (callee : Expr) (lx : Lexer)
  {struct fuel} : result (Expr * Lexer) :=
  match fuel with
  | 0 => OutOfFuel
  | S fuel =>
      let* (args, lx) := ParseArgumentList_loop fuel [] lx in
      let* _ := Check Token.RPAREN lx in
      let* lx := Next lx in
      Ok (CallExpr callee args, lx)
  end

with ParseArgumentList_loop (fuel : nat) (args : list Expr) (lx : Lexer)
  {struct fuel} : result (list Expr * Lexer) :=
  match fuel with
  | 0 => OutOfFuel
  | S fuel =>
      let* lx := Next lx in
      if negb (Token.Is (Current lx) Token.RPAREN) then
        let* (arg, lx) := ParseExpr fuel lx in
        let args := (args ++ [arg])%list in
        if negb (Token.Is (Current lx) Token.COMMA) then Ok (args, lx)
        else ParseArgumentList_loop fuel args lx
      else Ok (args, lx)
  end

with ParseAddSubExpr (fuel : nat) (lx : Lexer) {struct fuel}
  : result (Expr * Lexer) :=
  match fuel with
  | 0 => OutOfFuel
  | S fuel =>
      let* (lhs, lx) := ParseMulDivExpr fuel lx in
      let kind := Token.GetKind (Current lx) in
      ParseAddSubExpr_loop fuel lhs kind lx
  end

with ParseAddSubExpr_loop (fuel : nat) (lhs : Expr) (kind : Token.Kind)
  (lx : Lexer) {struct fuel} : result (Expr * Lexer) :=
  match fuel with
  | 0 => OutOfFuel
  | S fuel =>
      if is_addsub kind then
        let* lx := Next lx in
        let* (rhs, lx) := ParseMulDivExpr fuel lx in
        let lhs :=
          if Token.Kind_eqb kind Token.PLUS
          then BinaryExpr BinaryExpr.ADD lhs rhs
          else BinaryExpr BinaryExpr.SUB lhs rhs in
        let kind := Token.GetKind (Current lx) in
        ParseAddSubExpr_loop fuel lhs kind lx
      else Ok (lhs, lx)
  end

with ParseEqualityExpr (fuel : nat) (lx : Lexer) {struct fuel}
  : result (Expr * Lexer) :=
  match fuel with
  | 0 => OutOfFuel
  | S fuel =>
      let* (lhs, lx) := ParseComparisonExpr fuel lx in
      let kind := Token.GetKind (Current lx) in
      ParseEqualityExpr_loop fuel lhs kind lx
  end

with ParseEqualityExpr_loop (fuel : nat) (lhs : Expr) (kind : Token.Kind)
  (lx : Lexer) {struct fuel} : result (Expr * Lexer) :=
  match fuel with
  | 0 => OutOfFuel
  | S fuel =>
      if is_equality kind then
        let* lx := Next lx in
        let* (rhs, lx) := ParseComparisonExpr fuel lx in
        let lhs :=
          if Token.Kind_eqb kind Token.EQEQ
          then BinaryExpr BinaryExpr.EQ lhs rhs
          else BinaryExpr BinaryExpr.NEQ lhs rhs in
        let kind := Token.GetKind (Current lx) in
        ParseEqualityExpr_loop fuel lhs kind lx
      else Ok (lhs, lx)
  end

with ParseComparisonExpr (fuel : nat) (lx : Lexer) {struct fuel}
  : result (Expr * Lexer) :=
  match fuel with
  | 0 => OutOfFuel
  | S fuel =>
      let* (lhs, lx) := ParseAddSubExpr fuel lx in
      let kind := Token.GetKind (Current lx) in
      ParseComparisonExpr_loop fuel lhs kind lx
  end

with ParseComparisonExpr_loop (fuel : nat) (lhs : Expr) (kind : Token.Kind)
  (lx : Lexer) {struct fuel} : result (Expr * Lexer) :=
  match fuel with
  | 0 => OutOfFuel
  | S fuel =>
      if is_comparison kind then
        let* lx := Next lx in
        let* (rhs, lx) := ParseAddSubExpr fuel lx in
        let* lhs :=
          match kind with
          | Token.GR => Ok (BinaryExpr BinaryExpr.GR lhs rhs)
          | Token.GREQ => Ok (BinaryExpr BinaryExpr.GREQ lhs rhs)
          | Token.LE => Ok (BinaryExpr BinaryExpr.LE lhs rhs)
          | Token.LEQ => Ok (BinaryExpr BinaryExpr.LEQ lhs rhs)
          | _ => Undefined (* assert(false), not reached *)
          end in
        let kind := Token.GetKind (Current lx) in
        ParseComparisonExpr_loop fuel lhs kind lx
      else Ok (lhs, lx)
  end

with ParseMulDivExpr (fuel : nat) (lx : Lexer) {struct fuel}
  : result (Expr * Lexer) :=
  match fuel with
  | 0 => OutOfFuel
  | S fuel =>
      let* (lhs, lx) := ParseUnaryExpr fuel lx in
      let kind := Token.GetKind (Current lx) in
      ParseMulDivExpr_loop fuel lhs kind lx
  end

with ParseMulDivExpr_loop (fuel : nat) (lhs : Expr) (kind : Token.Kind)
  (lx : Lexer) {struct fuel} : result (Expr * Lexer) :=
  match fuel with
  | 0 => OutOfFuel
  | S fuel =>
      if is_muldiv kind then
        let* lx := Next lx in
        let* (rhs, lx) := ParseUnaryExpr fuel lx in
        let* lhs :=
          match kind with
          | Token.STAR => Ok (BinaryExpr BinaryExpr.MUL lhs rhs)
          | Token.SLASH => Ok (BinaryExpr BinaryExpr.DIV lhs rhs)
          | Token.MOD => Ok (BinaryExpr BinaryExpr.MOD lhs rhs)
          | _ => Undefined (* assert(false), not reached *)
          end in
        let kind := Token.GetKind (Current lx) in
        ParseMulDivExpr_loop fuel lhs kind lx
      else Ok (lhs, lx)
  end

(** In both operator cases the function calls itself on the lexer as it
    found it: the source has no [lexer_.Next()] before the recursive
    call. *)
with ParseUnaryExpr (fuel : nat) (lx : Lexer) {struct fuel}
  : result (Expr * Lexer) :=
  match fuel with
  | 0 => OutOfFuel
  | S fuel =>
      match Token.GetKind (Current lx) with
      | Token.BANG =>
          let* (operand, lx) := ParseUnaryExpr fuel lx in
          Ok (UnaryExpr UnaryExpr.NOT operand, lx)
      | Token.MINUS =>
          let* (operand, lx) := ParseUnaryExpr fuel lx in
          Ok (UnaryExpr UnaryExpr.NEG operand, lx)
      | _ => ParseCallExpr fuel lx
      end
  end.

#[local] Set Warnings "-non-full-mutual".

(** The statement grammar, with the same convention on [fuel]. *)
Fixpoint ParseStmt (fuel : nat) (lx : Lexer) {struct fuel}
  : result (Stmt * Lexer) :=
  match fuel with
  | 0 => OutOfFuel
  | S fuel =>
      let tk := Current lx in
      match Token.GetKind tk with
      | Token.RETURN => ParseReturnStmt fuel lx
      | Token.WHILE => ParseWhileStmt fuel lx
      | Token.IF => ParseIfStmt fuel lx
      | Token.LET => ParseVarDeclStmt fuel lx
      | Token.LBRACE => ParseBlockStmt fuel lx
      | _ =>
          let* (expr, lx) := ParseExpr fuel lx in
          Ok (ExprStmt expr, lx)
      end
  end

with ParseBlockStmt (fuel : nat) (lx : Lexer) {struct fuel}
  : result (Stmt * Lexer) :=
  match fuel with
  | 0 => OutOfFuel
  | S fuel =>
      let* _ := Check Token.LBRACE lx in
      let* (body, lx) := ParseBlockStmt_loop fuel [] lx in
      let* _ := Check Token.RBRACE lx in
      let* lx := Next lx in
      Ok (BlockStmt body, lx)
  end

with ParseBlockStmt_loop (fuel : nat) (body : list Stmt) (lx : Lexer)
  {struct fuel} : result (list Stmt * Lexer) :=
  match fuel with
  | 0 => OutOfFuel
  | S fuel =>
      let* lx := Next lx in
      if negb (Token.Is (Current lx) Token.RBRACE) then
        let* (stmt, lx) := ParseStmt fuel lx in
        let body := (body ++ [stmt])%list in
        if negb (Token.Is (Current lx) Token.SEMI) then Ok (body, lx)
        else ParseBlockStmt_loop fuel body lx
      else Ok (body, lx)
  end

with ParseReturnStmt (fuel : nat) (lx : Lexer) {struct fuel}
  : result (Stmt * Lexer) :=
  match fuel with
  | 0 => OutOfFuel
  | S fuel =>
      let* _ := Check Token.RETURN lx in
      let* lx := Next lx in
      let* (expr, lx) := ParseExpr fuel lx in
      Ok (ReturnStmt expr, lx)
  end

with ParseWhileStmt (fuel : nat) (lx : Lexer) {struct fuel}
  : result (Stmt * Lexer) :=
  match fuel with
  | 0 => OutOfFuel
  | S fuel =>
      let* _ := Check Token.WHILE lx in
      let* (_, lx) := Expect Token.LPAREN lx in
      let* lx := Next lx in
      let* (cond, lx) := ParseExpr fuel lx in
      let* _ := Check Token.RPAREN lx in
      let* lx := Next lx in
      let* (stmt, lx) := ParseStmt fuel lx in
      Ok (WhileStmt cond stmt, lx)
  end

with ParseIfStmt (fuel : nat) (lx : Lexer) {struct fuel}
  : result (Stmt * Lexer) :=
  match fuel with
  | 0 => OutOfFuel
  | S fuel =>
      let* _ := Check Token.IF lx in
      let* (_, lx) := Expect Token.LPAREN lx in
      let* lx := Next lx in
      let* (cond, lx) := ParseExpr fuel lx in
      let* _ := Check Token.RPAREN lx in
      let* lx := Next lx in
      let* (tstmt, lx) := ParseStmt fuel lx in
      if negb (Token.Is (Current lx) Token.ELSE) then
        Ok (IfStmt cond tstmt None, lx)
      else
        let* lx := Next lx in
        let* (fstmt, lx) := ParseStmt fuel lx in
        Ok (IfStmt cond tstmt (Some fstmt), lx)
  end

with ParseVarDeclStmt (fuel : nat) (lx : Lexer) {struct fuel}
  : result (Stmt * Lexer) :=
  match fuel with
  | 0 => OutOfFuel
  | S fuel =>
      let* _ := Check Token.LET lx in
      let* (_, lx) := Expect Token.IDENT lx in
      let* name := Token.GetIdent (Current lx) in
      let* (_, lx) := Expect Token.COLON lx in
      let* (_, lx) := Expect Token.IDENT lx in
      let* type := Token.GetIdent (Current lx) in
      let* (_, lx) := Expect Token.EQ lx in
      let* lx := Next lx in
      let* (expr, lx) := ParseExpr fuel lx in
      let* _ := Check Token.SEMI lx in
      Ok (VarDeclStmt name type expr, lx)
  end.

End Parser.

(** The syntax error of [ParseTermExpr] on a token [tk] that carries no
    payload and starts no term. *)
Definition expecting_term {A : Type} (tk : Token.t) : result A :=
  ParserError (Token.GetLocation tk)
    ("unexpected " ++ Token.PrintKind (Token.GetKind tk) ++ ", expecting term").

(** Parsing a statement, an expression or a term from the contents of a
    file.  Only the node and the token the parser stopped at are kept. *)
Definition stopped_at {A : Type} (r : result (A * Lexer))
  : result (A * (Token.Kind * Token.Value)) :=
  let* (a, lx) := r in
  Ok (a, (Token.kind_ (GetToken lx), Token.value_ (GetToken lx))).

Definition parse_with {A : Type} (f : nat -> Lexer -> result (A * Lexer))
  (fuel : nat) (contents : string) :=
  let* lx := lexer_on contents in stopped_at (f fuel lx).

(* ------------------------------------------------------------------------- *)
(** ** The module parser *)

(** [TopLevelStmt] of ast.h: a function declaration, a prototype or a
    statement.  A declaration keeps its name, its (argument, type) pairs
    and its body or primitive name.  Its member [type_] is a
    [const std::string &]: the parser binds it to the local [type] of
    [ParseModule], which is destroyed at the end of the branch that built
    the declaration, and no member function reads it. *)
Inductive TopLevelStmt : Set :=
| FuncDecl (name : string) (args : list (string * string))
           (type_ : dangling_reference) (body : Stmt)
| ProtoDecl (name : string) (args : list (string * string))
            (type_ : dangling_reference) (primitive : string)
| TopStmt (stmt : Stmt).

(** Modelled from the spec: the conversion of a [Token] to [bool] that
    [while (auto tk = Current())] applies is declared in the absent
    lexer.h; the loop runs until the terminal END token. *)
Definition Token_bool (tk : Token.t) : bool := negb (Token.Is tk Token.END).

(** The argument loop of [Parser::ParseModule]. *)
Fixpoint ParseModule_args (fuel : nat) (args : list (string * string))
  (lx : Lexer) : result (list (string * string) * Lexer) :=
  match fuel with
  | 0 => OutOfFuel
  | S fuel =>
      let* lx := Next lx in
      if negb (Token.Is (Parser.Current lx) Token.RPAREN) then
        let* arg := Token.GetIdent (Parser.Current lx) in
        let* (_, lx) := Parser.Expect Token.COLON lx in
        let* (tk, lx) := Parser.Expect Token.IDENT lx in
        let* type := Token.GetIdent tk in
        let args := (args ++ [(arg, type)])%list in
        let* lx := Next lx in
        if negb (Token.Is (Parser.Current lx) Token.COMMA) then Ok (args, lx)
        else ParseModule_args fuel args lx
      else Ok (args, lx)
  end.

(** The branch of [Parser::ParseModule] for a [func] item. *)
Definition ParseModule_func (fuel : nat) (lx : Lexer)
  : result (TopLevelStmt * Lexer) :=
  let* (tk, lx) := Parser.Expect Token.IDENT lx in
  let* name := Token.GetIdent tk in
  let* (_, lx) := Parser.Expect Token.LPAREN lx in
  let* (args, lx) := ParseModule_args fuel [] lx in
  let* _ := Parser.Check Token.RPAREN lx in
  let* (_, lx) := Parser.Expect Token.COLON lx in
  let* (tk, lx) := Parser.Expect Token.IDENT lx in
  let* _ := Token.GetIdent tk in
  let* lx := Next lx in
  if Token.Is (Parser.Current lx) Token.EQ then
    let* (tk, lx) := Parser.Expect Token.STRING lx in
    let* primitive := Token.GetString tk in
    let* lx := Next lx in
    Ok (ProtoDecl name args reference_to_destroyed primitive, lx)
  else
    let* (block, lx) := Parser.ParseBlockStmt fuel lx in
    Ok (FuncDecl name args reference_to_destroyed block, lx).

(** The loop of [Parser::ParseModule], entered with the items so far. *)
Fixpoint ParseModule_loop (fuel : nat) (body : list TopLevelStmt)
  (lx : Lexer) : result (list TopLevelStmt * Lexer) :=
  match fuel with
  | 0 => OutOfFuel
  | S fuel =>
      let tk := Parser.Current lx in
      if Token_bool tk then
        if Token.Is tk Token.FUNC then
          let* (decl, lx) := ParseModule_func fuel lx in
          ParseModule_loop fuel (body ++ [decl])%list lx
        else
          let* (stmt, lx) := Parser.ParseStmt fuel lx in
          ParseModule_loop fuel (body ++ [TopStmt stmt])%list lx
      else Ok (body, lx)
  end.

(** [Parser::ParseModule]: the items of the [Module]. *)
Definition ParseModule (fuel : nat) (lx : Lexer)
  : result (list TopLevelStmt * Lexer) :=
  ParseModule_loop fuel [] lx.

Definition parse_module (fuel : nat) (contents : string)
  : result (list TopLevelStmt) :=
  let* lx := lexer_on contents in
  let* (body, _) := ParseModule fuel lx in
  Ok body.

(** The kinds that start neither a statement nor an expression: every kind
    but the five that open a statement, the two prefix operators and the
    six that [ParseTermExpr] accepts. *)
Definition starts_nothing (kind : Token.Kind) : bool :=
  match kind with
  | Token.RETURN | Token.WHILE | Token.IF | Token.LET | Token.LBRACE
  | Token.BANG | Token.MINUS
  | Token.INT | Token.TRUE | Token.FALSE | Token.STRING | Token.IDENT
  | Token.LPAREN => false
  | _ => true
  end.

(* ------------------------------------------------------------------------- *)
(** ** Runtime values, programs and the interpreter state *)

(** A [RuntimeFn] is a pointer to one of the three functions of
    runtime.cpp, written here as the name under which [kRuntimeFns]
    registers the function. *)
Inductive RuntimeFn : Set := print_int | read_int | print_bool.

Module Value.

(** Modelled from the spec: [struct Value] is declared in the absent
    interp.h.  The tags are those [Interp::Run] switches on; exactly one is
    active, with its payload. *)
Inductive Kind : Set := INT | BOOL | STRING | ADDR | PROTO.

Inductive t : Set :=
| Int (v : Z)
| Bool (b : bool)
| Str (s : string)
| Addr (a : nat)
| Proto (f : RuntimeFn).

Definition GetKind (v : t) : Kind :=
  match v with
  | Int _ => INT | Bool _ => BOOL | Str _ => STRING
  | Addr _ => ADDR | Proto _ => PROTO
  end.

End Value.

Module Opcode.
Inductive t : Set :=
| PUSH_FUNC | PUSH_PROTO | PEEK | POP | CALL
| ADD | SUB | MUL | DIV | MOD
| EQ | NEQ | LEQ | GREQ | LE | GR
| NEG | NOT | RET | JUMP_FALSE | JUMP
| PUSH_INT | PUSH_BOOL | PUSH_STRING | STOP.
End Opcode.

(** Modelled from the spec: [class Program] is declared in the absent
    program.h.  [prog_.Read<T>(pc_)] decodes a [T] at offset [pc_] of the
    instruction stream and advances [pc_] past it; the byte encoding is left
    open, a program being given by what each read returns: the value and the
    offset that follows it. *)
Record Program := mkProgram {
  Read_Opcode : nat -> Opcode.t * nat;
  Read_size_t : nat -> nat * nat;
  Read_unsigned : nat -> nat * nat;
  Read_int64_t : nat -> Z * nat;
  Read_bool : nat -> bool * nat;
  Read_RuntimeFn : nat -> RuntimeFn * nat
}.

(** [std::cin] as far as [ReadInt] uses it: the characters of the standard
    input not yet read, and the [eofbit] and [failbit] of the stream
    state. *)
Record istream := mkIstream {
  unread_input : list ascii;
  cin_eofbit : bool;
  cin_failbit : bool
}.

(** The standard input at the start of a run. *)
Definition stdin (text : string) : istream :=
  mkIstream (list_ascii_of_string text) false false.

(** The interpreter: the members [prog_], [pc_] and [stack_] (a
    [std::vector<Value>], bottom first, top last), together with the two
    standard streams the primitives use: the text written to [std::cout] so
    far and the state of [std::cin]. *)
Record Interp := mkInterp {
  prog_ : Program;
  pc_ : nat;
  stack_ : list Value.t;
  cout : string;
  cin : istream
}.

Definition set_pc (st : Interp) (pc : nat) : Interp :=
  mkInterp (prog_ st) pc (stack_ st) (cout st) (cin st).
Definition set_stack (st : Interp) (stack : list Value.t) : Interp :=
  mkInterp (prog_ st) (pc_ st) stack (cout st) (cin st).
Definition set_cout (st : Interp) (out : string) : Interp :=
  mkInterp (prog_ st) (pc_ st) (stack_ st) out (cin st).
Definition set_cin (st : Interp) (inp : istream) : Interp :=
  mkInterp (prog_ st) (pc_ st) (stack_ st) (cout st) inp.

(** The exceptions that leave [Interp::Run]: [RuntimeError] with the text
    given at the throw; the [RuntimeError] of a typed pop or peek that found
    another tag, whose text is in the absent interp.h; [std::logic_error];
    and the [std::length_error] of [std::vector::resize]. *)
Inductive exn : Set :=
| RuntimeError (what : string)
| RuntimeError_tag (expected : Value.Kind)
| logic_error (what : string)
| length_error.

(** A throw leaves the interpreter as it was at that point, for whoever
    catches the exception. *)
Inductive vm_result (A : Type) : Type :=
| Done (a : A)
| Throw (e : exn) (st : Interp)
| UB.

Arguments Done {A} a.
Arguments Throw {A} e st.
Arguments UB {A}.

Definition vm_bind {A B : Type} (r : vm_result A) (k : A -> vm_result B)
  : vm_result B :=
  match r with
  | Done a => k a
  | Throw e st => Throw e st
  | UB => UB
  end.

Notation "'do*' x ':=' c 'in' k" := (vm_bind c (fun x => k))
  (at level 10, x pattern, c at level 100, k at level 200).

(** Reads from the program advance [pc_]. *)
Definition Read {T : Type} (rd : Program -> nat -> T * nat) (st : Interp)
  : T * Interp :=
  let (v, pc) := rd (prog_ st) (pc_ st) in (v, set_pc st pc).

(** Modelled from the spec: the stack helpers of the absent interp.h.
    [Push] appends a value; [Pop] removes and returns the last one, which
    an empty vector does not have; the typed pops and peeks check the tag
    and raise the typed runtime error on another one. *)
Definition Push (v : Value.t) (st : Interp) : Interp :=
  set_stack st (stack_ st ++ [v])%list.

Definition Pop (st : Interp) : vm_result (Value.t * Interp) :=
  match List.rev (stack_ st) with
  | [] => UB
  | v :: below => Done (v, set_stack st (List.rev below))
  end.

Definition Peek (st : Interp) : vm_result Value.t :=
  match List.rev (stack_ st) with
  | [] => UB
  | v :: _ => Done v
  end.

Definition PopInt (st : Interp) : vm_result (Z * Interp) :=
  do* (v, st) := Pop st in
  match v with
  | Value.Int i => Done (i, st)
  | _ => Throw (RuntimeError_tag Value.INT) st
  end.

Definition PopBool (st : Interp) : vm_result (bool * Interp) :=
  do* (v, st) := Pop st in
  match v with
  | Value.Bool b => Done (b, st)
  | _ => Throw (RuntimeError_tag Value.BOOL) st
  end.

Definition PopAddr (st : Interp) : vm_result (nat * Interp) :=
  do* (v, st) := Pop st in
  match v with
  | Value.Addr a => Done (a, st)
  | _ => Throw (RuntimeError_tag Value.ADDR) st
  end.

Definition PeekInt (st : Interp) : vm_result Z :=
  do* v := Peek st in
  match v with
  | Value.Int i => Done i
  | _ => Throw (RuntimeError_tag Value.INT) st
  end.

Definition PeekBool (st : Interp) : vm_result bool :=
  do* v := Peek st in
  match v with
  | Value.Bool b => Done b
  | _ => Throw (RuntimeError_tag Value.BOOL) st
  end.

(** [stack_.resize(stack_.size() - k)]: the subtraction is on [size_t], so
    for [k] above the size the requested length wraps around to more than
    [max_size()] and [resize] throws. *)
Definition shrink (k : nat) (st : Interp) : vm_result Interp :=
  if k <=? List.length (stack_ st)
  then Done (set_stack st (firstn (List.length (stack_ st) - k) (stack_ st)))
  else Throw length_error st.

(** [*(stack_.rbegin() + idx)]. *)
Definition from_top (idx : nat) (st : Interp) : vm_result Value.t :=
  match nth_error (List.rev (stack_ st)) idx with
  | Some v => Done v
  | None => UB
  end.

(** [int64_t] results: signed overflow has no defined result. *)
Definition int64 (z : Z) : vm_result Z :=
  if ((- 2 ^ 63 <=? z) && (z <? 2 ^ 63))%Z then Done z else UB.

(* ------------------------------------------------------------------------- *)
(** ** The primitives (runtime.cpp) *)

Definition dec_of_Z (z : Z) : string := NilZero.string_of_int (Z.to_int z).

Definition PrintInt (interp : Interp) : vm_result Interp :=
  do* v := PeekInt interp in
  let interp := set_cout interp (cout interp ++ dec_of_Z v) in
  Done (Push (Value.Int v) interp).

Definition PrintBool (interp : Interp) : vm_result Interp :=
  do* v := PeekBool interp in
  let interp :=
    set_cout interp (cout interp ++ (if v then "true" else "false")) in
  Done (Push (Value.Bool v) interp).

(** The longest prefix of [l] whose characters satisfy [p], and the
    rest. *)
Fixpoint span (p : ascii -> bool) (l : list ascii)
  : list ascii * list ascii :=
  match l with
  | c :: rest =>
      if p c then let (run, rest') := span p rest in (c :: run, rest')
      else ([], l)
  | [] => ([], [])
  end.

(** [std::cin >> val] for an [int64_t val], with the flags [skipws] and
    [dec] and the classic locale that [std::cin] starts with: what is
    stored in [val], if anything, and the stream afterwards.

    The sentry fails, and nothing is stored, when [eofbit] or [failbit] is
    already set, or when only white space is left, which sets both bits.
    Otherwise [num_get] takes an optional sign and the digits that follow:
    without a digit it stores 0 and sets [failbit]; a number outside
    [int64_t] is stored as the nearest bound, with [failbit]; [eofbit] is
    set when the input ends with the field. *)
Definition extract_int64 (s : istream) : option Z * istream :=
  if cin_eofbit s || cin_failbit s then
    (None, mkIstream (unread_input s) (cin_eofbit s) true)
  else
    match snd (span isspace (unread_input s)) with
    | [] => (None, mkIstream [] true true)
    | c :: rest =>
        let negative := (c =? "-")%char in
        let field := if negative || (c =? "+")%char then rest else c :: rest in
        let (digits, rest) := span isdigit field in
        let at_end := match rest with [] => true | _ :: _ => false end in
        match digits with
        | [] => (Some 0%Z, mkIstream rest at_end true)
        | _ :: _ =>
            let n := decimal_value 0 (string_of_list_ascii digits) in
            let v := if negative then (- n)%Z else n in
            if (v <? - 2 ^ 63)%Z then
              (Some (- 2 ^ 63)%Z, mkIstream rest at_end true)
            else if (2 ^ 63 <=? v)%Z then
              (Some (2 ^ 63 - 1)%Z, mkIstream rest at_end true)
            else (Some v, mkIstream rest at_end false)
        end
    end.

(** [ReadInt]: [val] is not initialised, so when the extraction stores
    nothing the value that [Push] is given is indeterminate, and reading
    it has no defined behaviour. *)
Definition ReadInt (interp : Interp) : vm_result Interp :=
  let (val, inp) := extract_int64 (cin interp) in
  let interp := set_cin interp inp in
  match val with
  | Some val => Done (Push (Value.Int val) interp)
  | None => UB
  end.

(** The registry [kRuntimeFns]. *)
Definition kRuntimeFns (name : string) : option RuntimeFn :=
  if (name =? "print_int")%string then Some print_int
  else if (name =? "read_int")%string then Some read_int
  else if (name =? "print_bool")%string then Some print_bool
  else None.

(** The call through the pointer [callee.Val.Proto], on this interpreter. *)
Definition invoke (f : RuntimeFn) (interp : Interp) : vm_result Interp :=
  match f with
  | print_int => PrintInt interp
  | read_int => ReadInt interp
  | print_bool => PrintBool interp
  end.

(* ------------------------------------------------------------------------- *)
(** ** The interpreter loop (interp.cpp) *)

(** Binary operators on two popped integers: [rhs] is popped first. *)
Definition binop (f : Z -> Z -> vm_result Value.t) (st : Interp)
  : vm_result Interp :=
  do* (rhs, st) := PopInt st in
  do* (lhs, st) := PopInt st in
  do* v := f lhs rhs in
  Done (Push v st).

Definition arith (f : Z -> Z -> Z) (lhs rhs : Z) : vm_result Value.t :=
  do* r := int64 (f lhs rhs) in Done (Value.Int r).

(** [lhs / rhs] and [lhs % rhs] truncate towards zero; a zero divisor and
    the quotient of the least [int64_t] by -1 have no defined result. *)
Definition divide (f : Z -> Z -> Z) (lhs rhs : Z) : vm_result Value.t :=
  if ((rhs =? 0) || ((lhs =? - 2 ^ 63) && (rhs =? -1)))%Z then UB
  else arith f lhs rhs.

Definition compare (f : Z -> Z -> bool) (lhs rhs : Z) : vm_result Value.t :=
  Done (Value.Bool (f lhs rhs)).

(** The [case Opcode::CALL] of [Interp::Run]. *)
Definition exec_CALL (st : Interp) : vm_result Interp :=
  do* (callee, st) := Pop st in
  match callee with
  | Value.Proto f => invoke f st
  | Value.Addr a => Done (set_pc (Push (Value.Addr (pc_ st)) st) a)
  | Value.Int _ => Throw (RuntimeError "cannot call integer") st
  | Value.Bool _ => Throw (RuntimeError "cannot call boolean") st
  | Value.Str _ => Throw (RuntimeError "cannot call string") st
  end.

(** The [case Opcode::RET] of [Interp::Run]. *)
Definition exec_RET (st : Interp) : vm_result Interp :=
  let (depth, st) := Read Read_unsigned st in
  let (nargs, st) := Read Read_unsigned st in
  do* (v, st) := Pop st in
  do* st := shrink depth st in
  do* (a, st) := PopAddr st in
  let st := set_pc st a in
  do* st := shrink nargs st in
  Done (Push v st).

(** Modelled from the spec: the conversion of a [Value] to [bool] that
    [if (!cond)] applies is declared in the absent interp.h; the condition
    is a boolean, and another tag is the typed runtime error. *)
Definition truth (cond : Value.t) (st : Interp) : vm_result bool :=
  match cond with
  | Value.Bool b => Done b
  | _ => Throw (RuntimeError_tag Value.BOOL) st
  end.

(** One turn of the [for (;;)] loop of [Interp::Run]; the boolean tells
    whether the instruction was STOP, on which the function returns. *)
Definition step (st : Interp) : vm_result (bool * Interp) :=
  let (op, st) := Read Read_Opcode st in
  let continue (r : vm_result Interp) : vm_result (bool * Interp) :=
    do* st := r in Done (false, st) in
  match op with
  | Opcode.PUSH_FUNC =>
      let (a, st) := Read Read_size_t st in
      continue (Done (Push (Value.Addr a) st))
  | Opcode.PUSH_PROTO =>
      let (f, st) := Read Read_RuntimeFn st in
      continue (Done (Push (Value.Proto f) st))
  | Opcode.PEEK =>
      let (idx, st) := Read Read_unsigned st in
      continue (do* v := from_top idx st in Done (Push v st))
  | Opcode.POP => continue (do* (_, st) := Pop st in Done st)
  | Opcode.CALL => continue (exec_CALL st)
  | Opcode.ADD => continue (binop (arith Z.add) st)
  | Opcode.SUB => continue (binop (arith Z.sub) st)
  | Opcode.MUL => continue (binop (arith Z.mul) st)
  | Opcode.DIV => continue (binop (divide Z.quot) st)
  | Opcode.MOD => continue (binop (divide Z.rem) st)
  | Opcode.EQ => continue (binop (compare Z.eqb) st)
  | Opcode.NEQ => continue (binop (compare (fun a b => negb (a =? b)%Z)) st)
  | Opcode.LEQ => continue (binop (compare Z.leb) st)
  | Opcode.GREQ => continue (binop (compare Z.geb) st)
  | Opcode.LE => continue (binop (compare Z.ltb) st)
  | Opcode.GR => continue (binop (compare Z.gtb) st)
  | Opcode.NEG =>
      continue (do* (opr, st) := PopInt st in
                do* r := int64 (- opr) in
                Done (Push (Value.Int r) st))
  | Opcode.NOT =>
      continue (do* (opr, st) := PopBool st in
                Done (Push (Value.Bool (negb opr)) st))
  | Opcode.RET => continue (exec_RET st)
  | Opcode.JUMP_FALSE =>
      continue (do* (cond, st) := Pop st in
                let (addr, st) := Read Read_size_t st in
                do* b := truth cond st in
                Done (if negb b then set_pc st addr else st))
  | Opcode.JUMP =>
      let (addr, st) := Read Read_size_t st in
      continue (Done (set_pc st addr))
  | Opcode.PUSH_INT =>
      let (val, st) := Read Read_int64_t st in
      continue (Done (Push (Value.Int val) st))
  | Opcode.PUSH_BOOL =>
      let (val, st) := Read Read_bool st in
      continue (Done (Push (Value.Bool val) st))
  | Opcode.PUSH_STRING => Throw (logic_error "Not yet implemented") st
  | Opcode.STOP => Done (true, st)
  end.

(** [Interp::Run], for at most [fuel] instructions: the state at the STOP
    that ended the run, or [None] when the bound came first. *)
Fixpoint Run (fuel : nat) (st : Interp) : vm_result (option Interp) :=
  match fuel with
  | 0 => Done None
  | S fuel =>
      do* (stop, st) := step st in
      if (stop : bool) then Done (Some st) else Run fuel st
  end.

(** A program given cell by cell, one decoded item per offset, for running
    the interpreter on examples: a read returns the item at the offset when
    it has the type asked for, and moves to the next offset. *)
Inductive cell : Set :=
| c_op (op : Opcode.t)
| c_size (n : nat)
| c_unsigned (n : nat)
| c_int64 (z : Z)
| c_bool (b : bool)
| c_fn (f : RuntimeFn).

Definition read_cell {T : Type} (pick : cell -> option T) (default : T)
  (cells : list cell) (pc : nat) : T * nat :=
  match nth_error cells pc with
  | Some c => match pick c with Some v => (v, S pc) | None => (default, S pc) end
  | None => (default, S pc)
  end.

Definition program_of_cells (cells : list cell) : Program :=
  mkProgram
    (read_cell (fun c => match c with c_op op => Some op | _ => None end)
               Opcode.STOP cells)
    (read_cell (fun c => match c with c_size n => Some n | _ => None end) 0 cells)
    (read_cell (fun c => match c with c_unsigned n => Some n | _ => None end)
               0 cells)
    (read_cell (fun c => match c with c_int64 z => Some z | _ => None end)
               0%Z cells)
    (read_cell (fun c => match c with c_bool b => Some b | _ => None end)
               false cells)
    (read_cell (fun c => match c with c_fn f => Some f | _ => None end)
               read_int cells).

(** [RET 1 2], the return from a call with two arguments and one local;
    and a lone CALL. *)
Definition ret_program : Program :=
  program_of_cells [c_op Opcode.RET; c_unsigned 1; c_unsigned 2].

Definition call_program : Program := program_of_cells [c_op Opcode.CALL].

(** What a binary instruction computes from the two integers it pops, the
    left operand being the deeper one: the sum, difference, product,
    truncated quotient or remainder as an [int64_t], or the comparison as a
    boolean; [None] where the C++ operator has no defined result (overflow,
    a zero divisor) and for the other opcodes. *)
Definition binary_result (op : Opcode.t) (lhs rhs : Z) : option Value.t :=
  let int (z : Z) :=
    if ((- 2 ^ 63 <=? z) && (z <? 2 ^ 63))%Z then Some (Value.Int z)
    else None in
  let defined := negb ((rhs =? 0) || ((lhs =? - 2 ^ 63) && (rhs =? -1)))%Z in
  match op with
  | Opcode.ADD => int (lhs + rhs)%Z
  | Opcode.SUB => int (lhs - rhs)%Z
  | Opcode.MUL => int (lhs * rhs)%Z
  | Opcode.DIV => if defined then int (Z.quot lhs rhs) else None
  | Opcode.MOD => if defined then int (Z.rem lhs rhs) else None
  | Opcode.EQ => Some (Value.Bool (lhs =? rhs)%Z)
  | Opcode.NEQ => Some (Value.Bool (negb (lhs =? rhs)%Z))
  | Opcode.LEQ => Some (Value.Bool (lhs <=? rhs)%Z)
  | Opcode.GREQ => Some (Value.Bool (lhs >=? rhs)%Z)
  | Opcode.LE => Some (Value.Bool (lhs <? rhs)%Z)
  | Opcode.GR => Some (Value.Bool (lhs >? rhs)%Z)
  | _ => None
  end.

(** [PEEK 1]; a program that reads an integer and prints it; and a lone
    SUB. *)
Definition peek_program : Program :=
  program_of_cells [c_op Opcode.PEEK; c_unsigned 1].

Definition echo_program : Program :=
  program_of_cells
    [c_op Opcode.PUSH_PROTO; c_fn read_int; c_op Opcode.CALL;
     c_op Opcode.PUSH_PROTO; c_fn print_int; c_op Opcode.CALL;
     c_op Opcode.STOP].

(** The opcodes of the binary operators. *)
Definition binary_opcodes : list Opcode.t :=
  [Opcode.ADD; Opcode.SUB; Opcode.MUL; Opcode.DIV; Opcode.MOD;
   Opcode.EQ; Opcode.NEQ; Opcode.LEQ; Opcode.GREQ; Opcode.LE; Opcode.GR].

Definition sub_program : Program := program_of_cells [c_op Opcode.SUB].

(** [st'] is a later state of the run that [st] belongs to: the same
    program, the output of [st] with more text after it, and the unread
    input of [st] with some characters taken from its front. *)
Definition later (st st' : Interp) : Prop :=
  prog_ st' = prog_ st /\
  (exists text : string, cout st' = (cout st ++ text)%string) /\
  (exists taken : list ascii,
      unread_input (cin st) = (taken ++ unread_input (cin st'))%list).

(* ------------------------------------------------------------------------- *)
(** * Properties of the lexer *)

Example lex_prototype :
  tokenize "func f(a: int): int = { return a; }
" = Ok [(Token.FUNC, Token.NoValue); (Token.IDENT, Token.StringValue "f");
        (Token.LPAREN, Token.NoValue); (Token.IDENT, Token.StringValue "a");
        (Token.COLON, Token.NoValue); (Token.IDENT, Token.StringValue "int");
        (Token.RPAREN, Token.NoValue); (Token.COLON, Token.NoValue);
        (Token.IDENT, Token.StringValue "int"); (Token.EQ, Token.NoValue);
        (Token.LBRACE, Token.NoValue); (Token.RETURN, Token.NoValue);
        (Token.IDENT, Token.StringValue "a"); (Token.SEMI, Token.NoValue);
        (Token.RBRACE, Token.NoValue); (Token.END, Token.NoValue)].
Proof. vm_compute. reflexivity. Qed.

Example lex_unterminated_string :
  tokenize (String DQUOTE "abc") =
  LexerError (mkLocation "a.imp" 1 6) "string not terminated".
Proof. vm_compute. reflexivity. Qed.

(** The last character of a file is delivered twice, because [get] leaves
    [chr_] alone when it fails: a word that ends the file gains a letter. *)
Example lex_last_character_twice :
  tokenize "ab" = Ok [(Token.IDENT, Token.StringValue "abb");
                      (Token.END, Token.NoValue)].
Proof. vm_compute. reflexivity. Qed.

Example lex_incr_decr :
  tokenize "++ -- + - == =
" = Ok [(Token.INCR, Token.NoValue); (Token.DECR, Token.NoValue);
        (Token.PLUS, Token.NoValue); (Token.MINUS, Token.NoValue);
        (Token.EQEQ, Token.NoValue); (Token.EQ, Token.NoValue);
        (Token.END, Token.NoValue)].
Proof. vm_compute. reflexivity. Qed.

Lemma skip_space_stays (fuel : nat) (lx : Lexer) :
  isspace (chr_ lx) = false -> skip_space (S fuel) lx = Ok lx.
Proof. intros H. simpl. rewrite H. reflexivity. Qed.

Lemma scan_fuel_S (lx : Lexer) : exists n, scan_fuel lx = S n.
Proof.
  unfold scan_fuel. exists (List.length (rdbuf (is_ lx)) + 2). lia.
Qed.

(** The characters [<], [>] and [!] have no case in the switch of [Next],
    are no digits and start no identifier: [Next] refuses them as unknown
    characters.  And whatever the input, a token that [Next] delivers is
    of none of the kinds LE, GR, LEQ, GREQ, NEQ and BANG. *)
Theorem Next_unknown_character :
  forall lx : Lexer,
    (In (chr_ lx) ["<"; ">"; "!"]%char ->
     Next lx = LexerError (GetLocation lx)
                 ("unknown character '" ++ String (chr_ lx) "" ++ "'"))
    /\
    (forall lx' : Lexer,
        Next lx = Ok lx' ->
        existsb (Token.Is (GetToken lx')) never_lexed = false).
Proof.
  intros lx. split.
  - intros Hin. unfold Next.
    destruct (scan_fuel_S lx) as [n ->].
    rewrite skip_space_stays.
    + cbn [bind]. cbv zeta.
      destruct Hin as [<- | [<- | [<- | []]]]; reflexivity.
    + destruct Hin as [<- | [<- | [<- | []]]]; reflexivity.
  - intros lx' H. unfold Next in H.
    destruct (skip_space (scan_fuel lx) lx) as [l | | | |];
      cbn [bind] in H; try discriminate H.
    cbv zeta in H.
    repeat match type of H with
           | (if ?b then _ else _) = Ok _ => destruct b
           | (let (_, _) := ?p in _) = Ok _ => destruct p
           | @bind (_ * _) _ ?c _ = Ok _ =>
               destruct c as [[? ?] | | | |]; cbn [bind] in H
           | bind ?c _ = Ok _ => destruct c as [? | | | |]; cbn [bind] in H
           | match stod ?w with
             | stod_value _ => _
             | stod_out_of_range => _
             end = Ok _ => destruct (stod w)
           end;
      try discriminate H; injection H as <-;
      unfold GetToken, set_tk; cbn [tk_]; try reflexivity.
    unfold classify_word.
    repeat match goal with
           | |- context [if ?b then _ else _] => destruct b
           end; reflexivity.
Qed.

Lemma Next_unknown_character_witness :
  Next (NextChar (Lexer_members "a.imp" "< y" NUL 1 1
                    (Token.End (mkLocation "a.imp" 1 1))))
  = LexerError (mkLocation "a.imp" 1 2) "unknown character '<'"
  /\
  exists lx' : Lexer,
    Next (NextChar (Lexer_members "a.imp" "y <" NUL 1 1
                      (Token.End (mkLocation "a.imp" 1 1))))
    = Ok lx' /\
    Token.GetKind (GetToken lx') = Token.IDENT /\
    existsb (Token.Is (GetToken lx')) never_lexed = false.
Proof.
  split.
  - apply (proj1 (Next_unknown_character
                    (NextChar (Lexer_members "a.imp" "< y" NUL 1 1
                                 (Token.End (mkLocation "a.imp" 1 1)))))).
    left. reflexivity.
  - eexists.
    match goal with
    | |- ?A /\ _ =>
        assert (H : A) by (lazy; reflexivity);
        split; [ exact H | split; [ reflexivity | ] ];
        exact (proj2 (Next_unknown_character _) _ H)
    end.
Defined.

(* ------------------------------------------------------------------------- *)
(** * The lexer always answers

    The bound [scan_fuel] given to the loops of [Next] is never reached: a
    call of [NextChar] either takes a character from the stream, or sets
    its [eofbit], or sets [chr_] to NUL, at which every loop stops. *)

Lemma NextChar_at_eof (lx : Lexer) :
  eof (is_ lx) = true ->
  chr_ (NextChar lx) = NUL /\ is_ (NextChar lx) = is_ lx.
Proof. intros H. unfold NextChar. rewrite H. split; reflexivity. Qed.

Lemma NextChar_pending (lx : Lexer) :
  eof (is_ lx) = false -> S (pending (NextChar lx)) = pending lx.
Proof.
  intros H. unfold NextChar, pending, get, eof in *. rewrite H.
  destruct (chr_ lx =? NL)%char;
    destruct (is_ lx) as [[| x rest] e]; cbn in *; subst; cbn; lia.
Qed.

Lemma skip_space_total (fuel : nat) :
  forall lx : Lexer,
    pending lx + 2 <= fuel ->
    exists lx' : Lexer,
      skip_space fuel lx = Ok lx' /\ pending lx' <= pending lx.
Proof.
  induction fuel as [| fuel IH]; intros lx Hf; [ lia | ].
  cbn [skip_space]. destruct (isspace (chr_ lx)) eqn:Hs; [ | eauto ].
  destruct (eof (is_ lx)) eqn:He.
  - destruct (NextChar_at_eof lx He) as [Hc Hi].
    destruct fuel as [| fuel]; [ lia | ].
    cbn [skip_space]. rewrite Hc. cbn.
    exists (NextChar lx). split; [ reflexivity | ].
    unfold pending. rewrite Hi. lia.
  - pose proof (NextChar_pending lx He) as Hp.
    destruct (IH (NextChar lx)) as [lx' [E Hle]]; [ lia | ].
    exists lx'. split; [ exact E | lia ].
Qed.

Lemma scan_while_total (p : ascii -> bool) (fuel : nat) :
  p NUL = false ->
  forall (word : string) (lx : Lexer),
    pending lx + 2 <= fuel ->
    exists r, scan_while p fuel word lx = Ok r.
Proof.
  intros Hp. induction fuel as [| fuel IH]; intros word lx Hf; [ lia | ].
  cbn [scan_while]. destruct (p (chr_ (NextChar lx))) eqn:Hc; [ | eauto ].
  destruct (eof (is_ lx)) eqn:He.
  - destruct (NextChar_at_eof lx He) as [Hn _]. congruence.
  - pose proof (NextChar_pending lx He). apply IH. lia.
Qed.

Lemma scan_string_total (fuel : nat) :
  forall (word : string) (lx : Lexer),
    pending lx + 2 <= fuel ->
    out_of_fuel (scan_string fuel word lx) = false.
Proof.
  induction fuel as [| fuel IH]; intros word lx Hf; [ lia | ].
  cbn [scan_string]. destruct (chr_ lx =? DQUOTE)%char; [ reflexivity | ].
  destruct (chr_ (NextChar lx) =? NUL)%char eqn:Hc; [ reflexivity | ].
  destruct (eof (is_ lx)) eqn:He.
  - destruct (NextChar_at_eof lx He) as [Hn _]. rewrite Hn in Hc.
    discriminate Hc.
  - pose proof (NextChar_pending lx He). apply IH. lia.
Qed.

Lemma scan_fuel_enough (lx : Lexer) : pending lx + 2 <= scan_fuel lx.
Proof.
  unfold pending, scan_fuel. destruct (eofbit (is_ lx)); lia.
Qed.

(** [Next] never runs into the bound of its loops. *)
Theorem Next_total : forall lx : Lexer, out_of_fuel (Next lx) = false.
Proof.
  intros lx. unfold Next.
  destruct (skip_space_total _ lx (scan_fuel_enough lx)) as [lx' [-> _]].
  cbn [bind]. clear lx.
  repeat match goal with
         | |- out_of_fuel (if ?b then _ else _) = false => destruct b eqn:?
         | |- out_of_fuel (let (_, _) := ?p in _) = false => destruct p
         | |- out_of_fuel (Ok _) = false => reflexivity
         | |- out_of_fuel (Error _ _) = false => reflexivity
         end.
  - pose proof (scan_string_total _ "" _ (scan_fuel_enough (NextChar lx'))).
    destruct (scan_string _ _ _) as [[w l] | | | |]; try reflexivity.
    discriminate.
  - destruct (scan_while_total isdigit _ eq_refl "" _ (scan_fuel_enough lx'))
      as [[w l] ->].
    cbn [bind]. destruct (stod w); [ | reflexivity ].
    unfold double_to_uint64. destruct (d <? 2 ^ 64)%Z; reflexivity.
  - destruct (scan_while_total IsIdentLetter _ eq_refl "" _
                (scan_fuel_enough lx')) as [[w l] ->].
    reflexivity.
Qed.

(** C1: the claim says that a source text [x < y] lexes and parses to a
    relational binary expression.  In the code the characters of the
    relational operators have no case in [Lexer::Next]: on [x < y],
    [x <= y], [x > y] and [x >= y] the token stream and the expression
    parser both end in the lexical error for an unknown character, whatever
    the recursion bound. *)
Theorem relational_operator_is_lexical_error :
  forall fuel : nat,
    tokenize "x < y" =
      LexerError (mkLocation "a.imp" 1 4) "unknown character '<'" /\
    parse_with Parser.ParseExpr (8 + fuel) "x < y" =
      LexerError (mkLocation "a.imp" 1 4) "unknown character '<'" /\
    parse_with Parser.ParseExpr (8 + fuel) "x <= y" =
      LexerError (mkLocation "a.imp" 1 4) "unknown character '<'" /\
    parse_with Parser.ParseExpr (8 + fuel) "x > y" =
      LexerError (mkLocation "a.imp" 1 4) "unknown character '>'" /\
    parse_with Parser.ParseExpr (8 + fuel) "x >= y" =
      LexerError (mkLocation "a.imp" 1 4) "unknown character '>'".
Proof.
  intros fuel. repeat split; vm_compute; reflexivity.
Qed.

(** C3: the claim says that the words [true] and [false] become keyword
    tokens and parse to boolean literals.  In the code [classify_word] has
    no test for them: they are identifier tokens, and [ParseTermExpr] makes
    references to variables named [true] and [false] of them. *)
Theorem true_false_are_identifiers :
  forall (fuel : nat) (loc : Location),
    classify_word loc "true" = Token.Ident loc "true" /\
    classify_word loc "false" = Token.Ident loc "false" /\
    tokenize "true false
" = Ok [(Token.IDENT, Token.StringValue "true");
        (Token.IDENT, Token.StringValue "false");
        (Token.END, Token.NoValue)] /\
    parse_with Parser.ParseTermExpr (1 + fuel) "true
" = Ok (RefExpr "true", (Token.END, Token.NoValue)) /\
    parse_with Parser.ParseTermExpr (1 + fuel) "false
" = Ok (RefExpr "false", (Token.END, Token.NoValue)).
Proof.
  intros fuel loc. repeat split; vm_compute; reflexivity.
Qed.

(** C6: the claim says that a run of digits becomes the token of its exact
    value when that fits 64 bits, and a lexical error otherwise.  The code
    converts through [std::stod]: 2^53 + 1 comes out as 2^53; 2^64 - 1, which
    fits, and 2^64, which does not, both round to the double 2^64, whose
    conversion to [uint64_t] is undefined and raises nothing; the lexical
    error is raised only past the largest double (here 10^309). *)
Theorem integer_literal_rounded_through_double :
  tokenize "9007199254740993
" = Ok [(Token.INT, Token.IntValue 9007199254740992);
        (Token.END, Token.NoValue)] /\
  tokenize "18446744073709551615
" = Undefined /\
  tokenize "18446744073709551616
" = Undefined /\
  tokenize ("1" ++ concat "" (repeat "0" 309) ++ "
") = LexerError (mkLocation "a.imp" 1 312)
                ("Integer literal out of range!" ++ String NL "").
Proof.
  repeat split; vm_compute; reflexivity.
Qed.

(* ------------------------------------------------------------------------- *)
(** * Every token is a step towards the end of the input *)

Lemma NextChar_unread_le (lx : Lexer) : unread (NextChar lx) <= unread lx.
Proof.
  unfold unread. destruct (eof (is_ lx)) eqn:He.
  - destruct (NextChar_at_eof lx He) as [Hc Hi].
    unfold pending. rewrite Hc, Hi. cbn. lia.
  - pose proof (NextChar_pending lx He).
    destruct (chr_ (NextChar lx) =? NUL)%char;
      destruct (chr_ lx =? NUL)%char; lia.
Qed.

Lemma NextChar_unread_lt (lx : Lexer) :
  (chr_ lx =? NUL)%char = false -> unread (NextChar lx) < unread lx.
Proof.
  intros Hc. unfold unread. rewrite Hc. destruct (eof (is_ lx)) eqn:He.
  - destruct (NextChar_at_eof lx He) as [Hn Hi].
    unfold pending. rewrite Hn, Hi. cbn. lia.
  - pose proof (NextChar_pending lx He).
    destruct (chr_ (NextChar lx) =? NUL)%char; lia.
Qed.

Lemma PeekChar_unread (lx : Lexer) :
  unread (snd (PeekChar lx)) <= unread lx /\
  chr_ (snd (PeekChar lx)) = chr_ lx.
Proof.
  destruct lx as [n [[| x rest] [|]] c l k t];
    unfold PeekChar, unread, pending, peek, eof; cbn;
    destruct (c =? NUL)%char; split; try reflexivity; lia.
Qed.

Lemma set_tk_unread (lx : Lexer) (tk : Token.t) :
  unread (set_tk lx tk) = unread lx.
Proof. reflexivity. Qed.

Lemma skip_space_unread (fuel : nat) :
  forall lx lx' : Lexer,
    skip_space fuel lx = Ok lx' -> unread lx' <= unread lx.
Proof.
  induction fuel as [| fuel IH]; intros lx lx' H; [ discriminate H | ].
  cbn [skip_space] in H. destruct (isspace (chr_ lx)).
  - apply IH in H. pose proof (NextChar_unread_le lx). lia.
  - injection H as <-. lia.
Qed.

Lemma scan_while_unread (p : ascii -> bool) (fuel : nat) :
  forall (word word' : string) (lx lx' : Lexer),
    scan_while p fuel word lx = Ok (word', lx') ->
    unread lx' <= unread (NextChar lx).
Proof.
  induction fuel as [| fuel IH]; intros word word' lx lx' H;
    [ discriminate H | ].
  cbn [scan_while] in H. destruct (p (chr_ (NextChar lx))).
  - apply IH in H. pose proof (NextChar_unread_le (NextChar lx)). lia.
  - injection H as _ <-. lia.
Qed.

Lemma scan_string_unread (fuel : nat) :
  forall (word word' : string) (lx lx' : Lexer),
    scan_string fuel word lx = Ok (word', lx') ->
    unread lx' <= unread lx.
Proof.
  induction fuel as [| fuel IH]; intros word word' lx lx' H;
    [ discriminate H | ].
  cbn [scan_string] in H. destruct (chr_ lx =? DQUOTE)%char.
  - injection H as _ <-. lia.
  - destruct (chr_ (NextChar lx) =? NUL)%char; [ discriminate H | ].
    apply IH in H. pose proof (NextChar_unread_le lx). lia.
Qed.

(** A call of [Next] that delivers a token other than END brings the
    lexer strictly nearer to the end of its input: it has taken a character
    from the stream, or made the read that sets the [eofbit], or set the
    current character to NUL, and undone none of these.  The measure is
    [unread]. *)
Theorem Next_makes_progress :
  forall lx lx' : Lexer,
    Next lx = Ok lx' ->
    Token.Is (GetToken lx') Token.END = false ->
    unread lx' < unread lx.
Proof.
  intros lx lx' H Hend. unfold Next in H.
  destruct (skip_space (scan_fuel lx) lx) as [l0 | | | |] eqn:Hs;
    try discriminate H.
  apply skip_space_unread in Hs. cbn [bind] in H. cbv zeta in H.
  destruct (chr_ l0 =? NUL)%char eqn:Hnul.
  { injection H as <-. discriminate Hend. }
  pose proof (NextChar_unread_lt l0 Hnul) as Hlt.
  pose proof (NextChar_unread_le (NextChar l0)) as Hle2.
  destruct (PeekChar_unread l0) as [Hpk Hpc].
  assert (Hpl : unread (NextChar (snd (PeekChar l0))) < unread l0).
  { pose proof (NextChar_unread_lt (snd (PeekChar l0))) as Hx.
    rewrite Hpc in Hx. specialize (Hx Hnul). lia. }
  pose proof (NextChar_unread_le (NextChar (snd (PeekChar l0)))) as Hpl2.
  repeat match type of H with
         | (if ?b then _ else _) = Ok _ => destruct b
         | (let (_, _) := PeekChar l0 in _) = Ok _ =>
             destruct (PeekChar l0) as [pc pl]; cbn [snd] in *
         | Ok _ = Ok _ => injection H as <-; rewrite set_tk_unread; lia
         end.
  - destruct (scan_string _ _ _) as [[w l] | | | |] eqn:E; try discriminate H.
    cbn [bind] in H. injection H as <-. rewrite set_tk_unread.
    apply scan_string_unread in E.
    pose proof (NextChar_unread_le l). lia.
  - destruct (scan_while isdigit _ _ _) as [[w l] | | | |] eqn:E;
      try discriminate H.
    cbn [bind] in H. apply scan_while_unread in E.
    destruct (stod w); [ | discriminate H ].
    destruct (double_to_uint64 d); try discriminate H.
    cbn [bind] in H. injection H as <-. rewrite set_tk_unread. lia.
  - destruct (scan_while IsIdentLetter _ _ _) as [[w l] | | | |] eqn:E;
      try discriminate H.
    cbn [bind] in H. apply scan_while_unread in E.
    injection H as <-. rewrite set_tk_unread. lia.
  - discriminate H.
Qed.

Lemma length_list_ascii (s : string) :
  List.length (list_ascii_of_string s) = String.length s.
Proof. induction s as [| c s IH]; cbn; congruence. Qed.

(** On a file of two words, and on the file that holds a semicolon and
    nothing else, where the second call of [Next] delivers the semicolon
    once more and only sets the current character to NUL. *)
Lemma Next_makes_progress_witness :
  (exists lx lx' : Lexer,
      lexer_on "a b
" = Ok lx /\
      (Next lx = Ok lx' /\ Token.Is (GetToken lx') Token.END = false) /\
      unread lx' < unread lx)
  /\
  (exists lx lx' : Lexer,
      lexer_on ";" = Ok lx /\
      (Next lx = Ok lx' /\ Token.GetKind (GetToken lx') = Token.SEMI) /\
      rdbuf (is_ lx) = [] /\ rdbuf (is_ lx') = [] /\
      unread lx = 1 /\ unread lx' = 0 /\
      unread lx' < unread lx).
Proof.
  split.
  - do 2 eexists. split; [ lazy; reflexivity | ].
    match goal with
    | |- (?A /\ ?B) /\ _ =>
        assert (Ha : A) by (lazy; reflexivity);
        assert (Hb : B) by (lazy; reflexivity);
        split; [ exact (conj Ha Hb) | exact (Next_makes_progress _ _ Ha Hb) ]
    end.
  - do 2 eexists. split; [ lazy; reflexivity | ].
    match goal with
    | |- (?A /\ ?B) /\ _ =>
        assert (Ha : A) by (lazy; reflexivity);
        split; [ split; [ exact Ha | reflexivity ] | ];
        repeat (split; [ reflexivity | ]);
        exact (Next_makes_progress _ _ Ha eq_refl)
    end.
Defined.

(** At the NUL that ends the input [Next] delivers END without touching the
    stream, and does so again on every later call. *)
Theorem Next_at_end_is_idempotent :
  forall lx : Lexer,
    chr_ lx = NUL ->
    let lx' := set_tk lx (Token.End (GetLocation lx)) in
    Next lx = Ok lx' /\ Next lx' = Ok lx'.
Proof.
  intros lx Hc lx'.
  assert (H : forall l, chr_ l = NUL ->
                        Next l = Ok (set_tk l (Token.End (GetLocation l)))).
  { intros l Hl. unfold Next. destruct (scan_fuel_S l) as [n ->].
    rewrite skip_space_stays by (rewrite Hl; reflexivity).
    cbn [bind]. cbv zeta. rewrite Hl. reflexivity. }
  split; [ apply H, Hc | ].
  rewrite (H lx') by exact Hc. reflexivity.
Qed.

Lemma Next_at_end_is_idempotent_witness :
  exists lx : Lexer,
    lexer_on "" = Ok lx /\
    chr_ lx = NUL /\
    Token.GetKind (GetToken lx) = Token.END /\
    Next lx = Ok lx.
Proof.
  eexists. split; [ lazy; reflexivity | ].
  split; [ reflexivity | ].
  split; [ reflexivity | ].
  match goal with
  | |- Next ?l = _ =>
      exact (proj1 (Next_at_end_is_idempotent l eq_refl))
  end.
Defined.

(* ------------------------------------------------------------------------- *)
(** * Words, numbers and strings are maximal runs *)

Lemma append_assoc_string (a b c : string) : ((a ++ b) ++ c = a ++ (b ++ c))%string.
Proof. induction a as [| x a IH]; cbn; congruence. Qed.

(** The do-while loops of [Next]: from the character [a], with the run [w]
    of characters that satisfy [p] next in the stream and a character [c]
    that does not after it, the loop collects [a] and [w] and stops at
    [c]. *)
Lemma scan_while_run (p : ascii -> bool) (name : string) (rest : list ascii)
  (c : ascii) (line : nat) (tk : Token.t) :
  p NL = false ->
  p c = false ->
  forall (w : string) (fuel : nat) (acc : string) (a : ascii) (col : nat),
    String.length w < fuel ->
    p a = true ->
    Forall (fun x => p x = true) (list_ascii_of_string w) ->
    scan_while p fuel acc
      (mkLexer name (mkStream (list_ascii_of_string w ++ c :: rest) false)
               a line col tk)
    = Ok ((acc ++ String a w)%string,
          mkLexer name (mkStream rest false) c line
                  (col + String.length w + 1) tk).
Proof.
  intros Hnl Hc.
  induction w as [| b w IH]; intros fuel acc a col Hf Ha Hw;
    (destruct fuel as [| fuel]; [ cbn in Hf; lia | ]);
    assert (Ha' : (a =? NL)%char = false)
      by (destruct (a =? NL)%char eqn:E; [ | reflexivity ];
          apply Ascii.eqb_eq in E; congruence);
    cbn [scan_while]; unfold NextChar, eof, get, push_back;
    cbn [is_ eofbit rdbuf chr_ lineNo_ charNo_ name_ tk_
         list_ascii_of_string List.app];
    rewrite Ha';
    cbn [is_ eofbit rdbuf chr_ lineNo_ charNo_ name_ tk_].
  - rewrite Hc. do 3 f_equal. cbn. lia.
  - inversion Hw as [| ? ? Hb Hw']; subst.
    rewrite Hb. rewrite IH; [ | cbn in Hf; lia | assumption | assumption ].
    rewrite append_assoc_string. cbn [String.append String.length].
    do 3 f_equal. lia.
Qed.

(** A digit or a character that starts an identifier is none of the
    characters [Next] tests before its default case. *)
Lemma default_case_check (c : ascii) :
  implb (isdigit c || IsIdentStart c)
    (negb (isspace c)
     && (negb (IsIdentStart c) || negb (isdigit c))
     && forallb (fun x => negb (c =? x)%char)
          [NUL; "("; ")"; "{"; "}"; ":"; ";"; "*"; "/"; "%"; "="; "+"; "-";
           ","; DQUOTE]%char) = true.
Proof. destruct c as [[] [] [] [] [] [] [] []]; vm_compute; reflexivity. Qed.

Lemma default_case_character (c : ascii) :
  isdigit c = true \/ IsIdentStart c = true ->
  isspace c = false /\
  (IsIdentStart c = true -> isdigit c = false) /\
  forallb (fun x => negb (c =? x)%char)
    [NUL; "("; ")"; "{"; "}"; ":"; ";"; "*"; "/"; "%"; "="; "+"; "-"; ",";
     DQUOTE]%char = true.
Proof.
  intros H. pose proof (default_case_check c) as Hc.
  replace (isdigit c || IsIdentStart c)%bool with true in Hc
    by (destruct H as [-> | ->]; [ reflexivity | apply eq_sym, orb_true_r ]).
  cbn [implb] in Hc.
  apply andb_prop in Hc. destruct Hc as [Hc Hf].
  apply andb_prop in Hc. destruct Hc as [Hs Hd].
  split; [ apply negb_true_iff, Hs | split; [ | exact Hf ] ].
  intros Hi. rewrite Hi in Hd. cbn in Hd. apply negb_true_iff, Hd.
Qed.

Ltac default_case H :=
  let Hs := fresh in
  let Hd := fresh "Hd" in
  let Hf := fresh in
  destruct (default_case_character _ H) as (Hs & Hd & Hf);
  unfold Next;
  match goal with
  | |- context [skip_space (scan_fuel ?l) ?l] =>
      let n := fresh in
      let E := fresh in
      destruct (scan_fuel_S l) as [n E]; rewrite E at 1;
      rewrite (skip_space_stays n l Hs)
  end;
  cbn [bind]; cbv zeta;
  cbn [forallb] in Hf;
  repeat match type of Hf with
         | (negb _ && _)%bool = true =>
             let Hx := fresh in
             apply andb_prop in Hf; destruct Hf as [Hx Hf];
             apply negb_true_iff in Hx; rewrite Hx; clear Hx
         end.

Lemma Next_on_digit (lx : Lexer) :
  isdigit (chr_ lx) = true ->
  Next lx =
  let* (word, l) := scan_while isdigit (scan_fuel lx) "" lx in
  match stod word with
  | stod_out_of_range =>
      Error l ("Integer literal out of range!" ++ String NL "")
  | stod_value d =>
      let* val := double_to_uint64 d in
      Ok (set_tk l (Token.Integer (GetLocation lx) val))
  end.
Proof.
  intros H. default_case (or_introl (IsIdentStart (chr_ lx) = true) H).
  rewrite H. reflexivity.
Qed.

Lemma Next_on_word_start (lx : Lexer) :
  IsIdentStart (chr_ lx) = true ->
  Next lx =
  let* (word, l) := scan_while IsIdentLetter (scan_fuel lx) "" lx in
  Ok (set_tk l (classify_word (GetLocation lx) word)).
Proof.
  intros H. default_case (or_intror (isdigit (chr_ lx) = true) H).
  rewrite (Hd H), H. reflexivity.
Qed.

(** An identifier or keyword is the maximal run of identifier letters:
    with a letter or underscore [a] as the current character, the letters
    and digits [w] next in the stream and a character [c] after them that
    is neither, [Next] delivers the token of the whole word [a w] (one of
    the six keywords, or IDENT with the word as payload), stops at [c] and
    has moved the column by the length of the word. *)
Theorem Next_word :
  forall (name : string) (rest : list ascii) (line col : nat) (tk : Token.t)
         (a c : ascii) (w : string),
    IsIdentStart a = true ->
    Forall (fun x => IsIdentLetter x = true) (list_ascii_of_string w) ->
    IsIdentLetter c = false ->
    Next (mkLexer name
            (mkStream (list_ascii_of_string w ++ c :: rest) false)
            a line col tk)
    = Ok (mkLexer name (mkStream rest false) c line
            (col + String.length w + 1)
            (classify_word (mkLocation name line col) (String a w))).
Proof.
  intros name rest line col tk a c w Ha Hw Hc.
  rewrite Next_on_word_start by exact Ha.
  rewrite (scan_while_run IsIdentLetter name rest c line tk eq_refl Hc w).
  - reflexivity.
  - unfold scan_fuel. cbn [is_ rdbuf]. rewrite length_app, length_list_ascii.
    lia.
  - unfold IsIdentLetter. rewrite Ha. reflexivity.
  - exact Hw.
Qed.

(** [funcx] is an identifier, [func] a keyword. *)
Lemma Next_word_witness :
  Next (mkLexer "a.imp" (mkStream (list_ascii_of_string "uncx" ++ ["("]%char) false)
          "f" 1 1 (Token.End (mkLocation "a.imp" 1 1)))
  = Ok (mkLexer "a.imp" (mkStream [] false) "(" 1 6
          (Token.Ident (mkLocation "a.imp" 1 1) "funcx"))
  /\
  Next (mkLexer "a.imp" (mkStream (list_ascii_of_string "unc" ++ [" "]%char) false)
          "f" 1 1 (Token.End (mkLocation "a.imp" 1 1)))
  = Ok (mkLexer "a.imp" (mkStream [] false) " " 1 5
          (Token.Func (mkLocation "a.imp" 1 1))).
Proof.
  split.
  - apply (Next_word "a.imp" [] 1 1 _ "f" "(" "uncx");
      [ reflexivity | repeat constructor | reflexivity ].
  - apply (Next_word "a.imp" [] 1 1 _ "f" " " "unc");
      [ reflexivity | repeat constructor | reflexivity ].
Defined.

(** A run of digits whose value is below 2^53 passes through the double
    unchanged. *)
Lemma stod_exact (word : string) :
  (decimal_value 0 word < 2 ^ 53)%Z ->
  stod word = stod_value (decimal_value 0 word) /\
  double_to_uint64 (decimal_value 0 word) = Ok (decimal_value 0 word).
Proof.
  intros H. unfold stod, round_binary64, double_to_uint64.
  apply Z.ltb_lt in H as Hb. rewrite Hb.
  assert (H1 : (2 ^ 53 < 2 ^ 64)%Z) by reflexivity.
  assert (H2 : (2 ^ 64 < 2 ^ 1024)%Z) by reflexivity.
  replace (2 ^ 1024 <=? decimal_value 0 word)%Z with false
    by (symmetry; apply Z.leb_gt; lia).
  replace (decimal_value 0 word <? 2 ^ 64)%Z with true
    by (symmetry; apply Z.ltb_lt; lia).
  split; reflexivity.
Qed.

(** An integer literal is the maximal run of digits, and when the number
    it denotes is below 2^53 the token carries exactly that number: with
    the digit [a] as the current character, the digits [w] next in the
    stream and a character [c] after them that is no digit, [Next]
    delivers the INT token of the value of [a w] and stops at [c]. *)
Theorem Next_number :
  forall (name : string) (rest : list ascii) (line col : nat) (tk : Token.t)
         (a c : ascii) (w : string),
    isdigit a = true ->
    Forall (fun x => isdigit x = true) (list_ascii_of_string w) ->
    isdigit c = false ->
    (decimal_value 0 (String a w) < 2 ^ 53)%Z ->
    Next (mkLexer name
            (mkStream (list_ascii_of_string w ++ c :: rest) false)
            a line col tk)
    = Ok (mkLexer name (mkStream rest false) c line
            (col + String.length w + 1)
            (Token.Integer (mkLocation name line col)
                           (decimal_value 0 (String a w)))).
Proof.
  intros name rest line col tk a c w Ha Hw Hc Hv.
  rewrite Next_on_digit by exact Ha.
  rewrite (scan_while_run isdigit name rest c line tk eq_refl Hc w).
  - cbn [bind String.append].
    destruct (stod_exact _ Hv) as [-> ->]. reflexivity.
  - unfold scan_fuel. cbn [is_ rdbuf]. rewrite length_app, length_list_ascii.
    lia.
  - exact Ha.
  - exact Hw.
Qed.

(** [007;] is the integer seven. *)
Lemma Next_number_witness :
  Next (mkLexer "a.imp" (mkStream (list_ascii_of_string "07" ++ [";"]%char) false)
          "0" 1 1 (Token.End (mkLocation "a.imp" 1 1)))
  = Ok (mkLexer "a.imp" (mkStream [] false) ";" 1 4
          (Token.Integer (mkLocation "a.imp" 1 1) 7)).
Proof.
  apply (Next_number "a.imp" [] 1 1 _ "0" ";" "07");
    [ reflexivity | repeat constructor | reflexivity | reflexivity ].
Defined.

Lemma Next_on_quote (lx : Lexer) :
  chr_ lx = DQUOTE ->
  Next lx =
  let* (word, l) := scan_string (scan_fuel (NextChar lx)) "" (NextChar lx) in
  Ok (set_tk (NextChar l) (Token.String (GetLocation lx) word)).
Proof.
  intros H. unfold Next. destruct (scan_fuel_S lx) as [n E]. rewrite E at 1.
  rewrite skip_space_stays by (rewrite H; reflexivity).
  cbn [bind]. cbv zeta. rewrite H. reflexivity.
Qed.

Lemma eqb_false (x y : ascii) : x <> y -> (x =? y)%char = false.
Proof.
  intros H. destruct (x =? y)%char eqn:E; [ | reflexivity ].
  apply Ascii.eqb_eq in E. contradiction.
Qed.

(** The loop of a string literal over a body [x w] that holds no quote and
    no NUL, with the closing quote after it: it collects the body and stops
    at the quote. *)
Lemma scan_string_run (name : string) (rest : list ascii) (tk : Token.t) :
  forall (w : string) (x : ascii) (acc : string) (line col fuel : nat),
    Forall (fun y => y <> DQUOTE /\ y <> NUL) (x :: list_ascii_of_string w) ->
    String.length w + 1 < fuel ->
    exists line' col' : nat,
      scan_string fuel acc
        (mkLexer name
           (mkStream (list_ascii_of_string w ++ DQUOTE :: rest) false)
           x line col tk)
      = Ok ((acc ++ String x w)%string,
            mkLexer name (mkStream rest false) DQUOTE line' col' tk).
Proof.
  induction w as [| y w IH]; intros x acc line col fuel Hb Hf;
    inversion Hb as [| ? ? [Hq Hn] Hb']; subst;
    (destruct fuel as [| fuel]; [ lia | ]);
    cbn [scan_string chr_]; rewrite (eqb_false _ _ Hq);
    unfold NextChar, eof, get, push_back;
    cbn [is_ eofbit rdbuf chr_ lineNo_ charNo_ name_ tk_
         list_ascii_of_string List.app].
  - destruct fuel as [| fuel]; [ cbn in Hf; lia | ].
    destruct (x =? NL)%char; cbn [scan_string chr_ is_ rdbuf eofbit];
      eexists; eexists; reflexivity.
  - inversion Hb' as [| ? ? [Hq' Hn'] Hb'']; subst.
    destruct (x =? NL)%char;
      cbn [chr_ is_ rdbuf eofbit name_ tk_ lineNo_ charNo_];
      rewrite (eqb_false _ _ Hn');
      match goal with
      | |- context [scan_string fuel _ (mkLexer _ _ _ ?l ?c _)] =>
          destruct (IH y (acc ++ String x "")%string l c fuel Hb'
                       ltac:(cbn in Hf; lia)) as (l' & c' & E)
      end;
      rewrite E; rewrite append_assoc_string; eexists; eexists; reflexivity.
Qed.

(** A string literal is everything between two quotes, verbatim: with a
    quote as the current character, a body without quote or NUL next in
    the stream, then the closing quote and a character [c], [Next]
    delivers the STRING token of the body and stops at [c].  No character
    of the body is special; a backslash is kept as it is. *)
Theorem Next_string :
  forall (name : string) (rest : list ascii) (line col : nat) (tk : Token.t)
         (body : string) (c : ascii),
    Forall (fun y => y <> DQUOTE /\ y <> NUL) (list_ascii_of_string body) ->
    exists line' col' : nat,
      Next (mkLexer name
              (mkStream (list_ascii_of_string body ++ DQUOTE :: c :: rest)
                        false)
              DQUOTE line col tk)
      = Ok (mkLexer name (mkStream rest false) c line' col'
              (Token.String (mkLocation name line col) body)).
Proof.
  intros name rest line col tk body c Hb.
  rewrite Next_on_quote by reflexivity.
  destruct body as [| x w].
  - cbn. eexists; eexists; reflexivity.
  - unfold NextChar at 2 3, eof, get, scan_fuel.
    cbn [is_ eofbit rdbuf chr_ lineNo_ charNo_ name_ tk_
         list_ascii_of_string List.app].
    replace (DQUOTE =? NL)%char with false by reflexivity.
    cbn [is_ eofbit rdbuf chr_ lineNo_ charNo_ name_ tk_].
    match goal with
    | |- context [scan_string ?f _ _] =>
        destruct (scan_string_run name (c :: rest) tk w x ""%string
                    line (S col) f Hb) as (l' & c' & E)
    end.
    + cbn. rewrite length_app, length_list_ascii. cbn. lia.
    + rewrite E. cbn. eexists; eexists; reflexivity.
Qed.

(** The body [a\] between quotes, followed by [b]: the backslash does not
    escape the closing quote. *)
Lemma Next_string_witness :
  exists line' col' : nat,
    Next (mkLexer "a.imp"
            (mkStream (list_ascii_of_string "a\" ++ DQUOTE :: "b"%char :: [])
                      false)
            DQUOTE 1 1 (Token.End (mkLocation "a.imp" 1 1)))
    = Ok (mkLexer "a.imp" (mkStream [] false) "b" line' col'
            (Token.String (mkLocation "a.imp" 1 1) "a\")).
Proof.
  apply (Next_string "a.imp" [] 1 1 _ "a\" "b").
  repeat constructor; discriminate.
Defined.

(** The loop of a string literal on a stream without quote. *)
Lemma scan_string_unterminated (fuel : nat) :
  forall (acc : string) (lx : Lexer),
    pending lx + 2 <= fuel ->
    (chr_ lx =? DQUOTE)%char = false ->
    Forall (fun y => y <> DQUOTE) (rdbuf (is_ lx)) ->
    exists loc : Location,
      scan_string fuel acc lx = LexerError loc "string not terminated".
Proof.
  induction fuel as [| fuel IH]; intros acc lx Hf Hc Hb; [ lia | ].
  cbn [scan_string]. rewrite Hc.
  destruct (chr_ (NextChar lx) =? NUL)%char eqn:Hn; [ eexists; reflexivity | ].
  destruct (eof (is_ lx)) eqn:He.
  - destruct (NextChar_at_eof lx He) as [Hx _]. rewrite Hx in Hn.
    discriminate Hn.
  - pose proof (NextChar_pending lx He) as Hp.
    apply IH; [ lia | | ];
      unfold NextChar, get; rewrite He;
      destruct (chr_ lx =? NL)%char;
      destruct (rdbuf (is_ lx)) as [| y r] eqn:Er;
      cbn [chr_ is_ rdbuf]; try exact Hc; try constructor;
      inversion Hb; subst; auto using eqb_false.
Qed.

(** A string literal that is not closed before the end of the input is a
    lexical error: with a quote as the current character and a stream
    that is not empty and holds no further quote, [Next] throws
    "string not terminated". *)
Theorem Next_unterminated_string :
  forall (name : string) (line col : nat) (tk : Token.t)
         (x : ascii) (body : list ascii),
    Forall (fun y => y <> DQUOTE) (x :: body) ->
    exists loc : Location,
      Next (mkLexer name (mkStream (x :: body) false) DQUOTE line col tk)
      = LexerError loc "string not terminated".
Proof.
  intros name line col tk x body Hb.
  rewrite Next_on_quote by reflexivity.
  inversion Hb as [| ? ? Hx Hb']; subst.
  destruct (scan_string_unterminated
              (scan_fuel
                 (NextChar
                    (mkLexer name (mkStream (x :: body) false) DQUOTE
                             line col tk)))
              ""%string
              (NextChar
                 (mkLexer name (mkStream (x :: body) false) DQUOTE
                          line col tk))) as [loc E].
  - apply scan_fuel_enough.
  - cbn. apply eqb_false, Hx.
  - cbn. exact Hb'.
  - exists loc. rewrite E. reflexivity.
Qed.

Lemma Next_unterminated_string_witness :
  exists loc : Location,
    Next (mkLexer "a.imp" (mkStream (list_ascii_of_string "abc") false)
            DQUOTE 1 1 (Token.End (mkLocation "a.imp" 1 1)))
    = LexerError loc "string not terminated".
Proof.
  apply (Next_unterminated_string "a.imp" 1 1 _ "a" ["b"; "c"]%char).
  repeat constructor; discriminate.
Defined.

(* ------------------------------------------------------------------------- *)
(** * Printing and lexing again *)

(** The text that [operator<<] prints for the kind of a keyword or
    punctuation token lexes to one token of that kind. *)
Theorem PrintKind_lexes_back :
  forall k : Token.Kind,
    In k reserved_kinds ->
    tokenize (Token.PrintKind k ++ String NL "")
    = Ok [(k, Token.NoValue); (Token.END, Token.NoValue)].
Proof.
  intros k H. unfold reserved_kinds in H.
  repeat (destruct H as [<- | H]; [ vm_compute; reflexivity | ]).
  destruct H.
Qed.

Lemma PrintKind_lexes_back_witness :
  tokenize "while
" = Ok [(Token.WHILE, Token.NoValue); (Token.END, Token.NoValue)]
  /\
  tokenize "==
" = Ok [(Token.EQEQ, Token.NoValue); (Token.END, Token.NoValue)].
Proof.
  split.
  - apply (PrintKind_lexes_back Token.WHILE). vm_compute. tauto.
  - apply (PrintKind_lexes_back Token.EQEQ). vm_compute. tauto.
Defined.



(* ------------------------------------------------------------------------- *)
(** * Properties of the parser *)

Example parse_precedence :
  parse_with Parser.ParseExpr 20 "2 + 3 * 4
" = Ok (BinaryExpr BinaryExpr.ADD (IntExpr 2)
          (BinaryExpr BinaryExpr.MUL (IntExpr 3) (IntExpr 4)),
        (Token.END, Token.NoValue)).
Proof. vm_compute. reflexivity. Qed.

Example parse_left_associative :
  parse_with Parser.ParseExpr 20 "10 - 3 - 2
" = Ok (BinaryExpr BinaryExpr.SUB
          (BinaryExpr BinaryExpr.SUB (IntExpr 10) (IntExpr 3)) (IntExpr 2),
        (Token.END, Token.NoValue)).
Proof. vm_compute. reflexivity. Qed.

Example parse_dangling_else :
  parse_with Parser.ParseStmt 30 "if (a) if (b) 1 else 2
" = Ok (IfStmt (RefExpr "a")
          (IfStmt (RefExpr "b") (ExprStmt (IntExpr 1))
                  (Some (ExprStmt (IntExpr 2))))
          None,
        (Token.END, Token.NoValue)).
Proof. vm_compute. reflexivity. Qed.

Example parse_call :
  parse_with Parser.ParseExpr 30 "f(1, g(x)) == 2 * (a + b) % 3
" = Ok (BinaryExpr BinaryExpr.EQ
          (CallExpr (RefExpr "f")
                    [IntExpr 1; CallExpr (RefExpr "g") [RefExpr "x"]])
          (BinaryExpr BinaryExpr.MOD
             (BinaryExpr BinaryExpr.MUL (IntExpr 2)
                (BinaryExpr BinaryExpr.ADD (RefExpr "a") (RefExpr "b")))
             (IntExpr 3)),
        (Token.END, Token.NoValue)).
Proof. vm_compute. reflexivity. Qed.

(** What the parser makes of the token kinds that the lexer never
    delivers: the comparison loop entered with the kind [LE] builds the
    relational node, and [ParseTermExpr] on a token of kind [TRUE] builds
    the boolean literal. *)
Example comparison_loop_on_relational_kind :
  (let* lx := lexer_on "x y
" in stopped_at
       (Parser.ParseComparisonExpr_loop 20 (RefExpr "x") Token.LE lx))
  = Ok (BinaryExpr BinaryExpr.LE (RefExpr "x") (RefExpr "y"),
        (Token.END, Token.NoValue)).
Proof. vm_compute. reflexivity. Qed.

Example term_on_keyword_kind :
  (let* lx := lexer_on "x
" in stopped_at
       (Parser.ParseTermExpr 1
          (set_tk lx (Token.Plain Token.TRUE (GetLocation lx)))))
  = Ok (BoolExpr true, (Token.END, Token.NoValue)).
Proof. vm_compute. reflexivity. Qed.

(* ------------------------------------------------------------------------- *)
(** * The recursion bound does not shape the result

    A parsing function that answers within a bound gives the same answer
    under every larger one. *)

Lemma within_refl {A : Type} (r : result A) : within r r.
Proof. right. reflexivity. Qed.

Lemma within_bind {A B : Type} (r1 r2 : result A) (k1 k2 : A -> result B) :
  within r1 r2 ->
  (forall a : A, within (k1 a) (k2 a)) ->
  within (bind r1 k1) (bind r2 k2).
Proof.
  intros [-> | ->] Hk; [ left; reflexivity | ].
  destruct r2; cbn [bind]; auto using within_refl.
Qed.

Lemma within_out_of_fuel {A : Type} (r : result A) : within OutOfFuel r.
Proof. left. reflexivity. Qed.

Create HintDb within discriminated.
#[local] Hint Resolve within_refl within_out_of_fuel : within.

(** Goals [within (f n ...) (f m ...)] on terms of the same shape: descend
    through the binds and the case distinctions, and close the leaves by
    reflexivity or by a hypothesis on the smaller bounds. *)
Ltac within_step :=
  first
    [ solve [ auto with within ]
    | match goal with
      | H : forall _, _ |- within _ _ => apply H
      end
    | apply within_bind; [ | intros ? ]
    | match goal with
      | |- within (match ?x with _ => _ end) _ => destruct x
      end ].

Lemma expression_parsers_monotone (n : nat) :
  forall m : nat,
    n <= m ->
    (forall lx, within (Parser.ParseExpr n lx) (Parser.ParseExpr m lx)) /\
    (forall lx, within (Parser.ParseTermExpr n lx) (Parser.ParseTermExpr m lx)) /\
    (forall lx, within (Parser.ParseCallExpr n lx) (Parser.ParseCallExpr m lx)) /\
    (forall callee lx,
        within (Parser.ParseArgumentList n callee lx)
               (Parser.ParseArgumentList m callee lx)) /\
    (forall args lx,
        within (Parser.ParseArgumentList_loop n args lx)
               (Parser.ParseArgumentList_loop m args lx)) /\
    (forall lx, within (Parser.ParseAddSubExpr n lx) (Parser.ParseAddSubExpr m lx)) /\
    (forall lhs kind lx,
        within (Parser.ParseAddSubExpr_loop n lhs kind lx)
               (Parser.ParseAddSubExpr_loop m lhs kind lx)) /\
    (forall lx,
        within (Parser.ParseEqualityExpr n lx) (Parser.ParseEqualityExpr m lx)) /\
    (forall lhs kind lx,
        within (Parser.ParseEqualityExpr_loop n lhs kind lx)
               (Parser.ParseEqualityExpr_loop m lhs kind lx)) /\
    (forall lx,
        within (Parser.ParseComparisonExpr n lx)
               (Parser.ParseComparisonExpr m lx)) /\
    (forall lhs kind lx,
        within (Parser.ParseComparisonExpr_loop n lhs kind lx)
               (Parser.ParseComparisonExpr_loop m lhs kind lx)) /\
    (forall lx, within (Parser.ParseMulDivExpr n lx) (Parser.ParseMulDivExpr m lx)) /\
    (forall lhs kind lx,
        within (Parser.ParseMulDivExpr_loop n lhs kind lx)
               (Parser.ParseMulDivExpr_loop m lhs kind lx)) /\
    (forall lx, within (Parser.ParseUnaryExpr n lx) (Parser.ParseUnaryExpr m lx)).
Proof.
  induction n as [| n IH]; intros m Hle.
  - repeat split; intros; auto with within.
  - destruct m as [| m]; [ lia | ].
    destruct (IH m (le_S_n _ _ Hle))
      as (I1 & I2 & I3 & I4 & I5 & I6 & I7 & I8 & I9 & I10 & I11 & I12 & I13
          & I14).
    clear IH.
    repeat split; intros;
      cbn [Parser.ParseExpr Parser.ParseTermExpr Parser.ParseCallExpr
           Parser.ParseArgumentList Parser.ParseArgumentList_loop
           Parser.ParseAddSubExpr Parser.ParseAddSubExpr_loop
           Parser.ParseEqualityExpr Parser.ParseEqualityExpr_loop
           Parser.ParseComparisonExpr Parser.ParseComparisonExpr_loop
           Parser.ParseMulDivExpr Parser.ParseMulDivExpr_loop
           Parser.ParseUnaryExpr];
      repeat within_step.
Qed.

Lemma statement_parsers_monotone (n : nat) :
  forall m : nat,
    n <= m ->
    (forall lx, within (Parser.ParseStmt n lx) (Parser.ParseStmt m lx)) /\
    (forall lx, within (Parser.ParseBlockStmt n lx) (Parser.ParseBlockStmt m lx)) /\
    (forall body lx,
        within (Parser.ParseBlockStmt_loop n body lx)
               (Parser.ParseBlockStmt_loop m body lx)) /\
    (forall lx, within (Parser.ParseReturnStmt n lx) (Parser.ParseReturnStmt m lx)) /\
    (forall lx, within (Parser.ParseWhileStmt n lx) (Parser.ParseWhileStmt m lx)) /\
    (forall lx, within (Parser.ParseIfStmt n lx) (Parser.ParseIfStmt m lx)) /\
    (forall lx,
        within (Parser.ParseVarDeclStmt n lx) (Parser.ParseVarDeclStmt m lx)).
Proof.
  induction n as [| n IH]; intros m Hle.
  - repeat split; intros; auto with within.
  - destruct m as [| m]; [ lia | ].
    destruct (IH m (le_S_n _ _ Hle)) as (I1 & I2 & I3 & I4 & I5 & I6 & I7).
    destruct (expression_parsers_monotone n m (le_S_n _ _ Hle)) as (E & _).
    clear IH.
    repeat split; intros;
      cbn [Parser.ParseStmt Parser.ParseBlockStmt Parser.ParseBlockStmt_loop
           Parser.ParseReturnStmt Parser.ParseWhileStmt Parser.ParseIfStmt
           Parser.ParseVarDeclStmt];
      repeat within_step.
Qed.

(** Under a larger bound [ParseExpr] returns what it returned under the
    smaller one, unless that was the bound itself. *)
Theorem ParseExpr_fuel_monotone :
  forall (n k : nat) (lx : Lexer),
    within (Parser.ParseExpr n lx) (Parser.ParseExpr (n + k) lx).
Proof.
  intros n k lx.
  apply (expression_parsers_monotone n (n + k)). lia.
Qed.

(** The same for [ParseStmt]. *)
Theorem ParseStmt_fuel_monotone :
  forall (n k : nat) (lx : Lexer),
    within (Parser.ParseStmt n lx) (Parser.ParseStmt (n + k) lx).
Proof.
  intros n k lx.
  apply (statement_parsers_monotone n (n + k)). lia.
Qed.

(** The unfolding of [ParseUnaryExpr] at a positive bound. *)
Lemma ParseUnaryExpr_S (fuel : nat) (lx : Lexer) :
  Parser.ParseUnaryExpr (S fuel) lx =
  match Token.GetKind (Parser.Current lx) with
  | Token.BANG =>
      let* (operand, lx) := Parser.ParseUnaryExpr fuel lx in
      Ok (UnaryExpr UnaryExpr.NOT operand, lx)
  | Token.MINUS =>
      let* (operand, lx) := Parser.ParseUnaryExpr fuel lx in
      Ok (UnaryExpr UnaryExpr.NEG operand, lx)
  | _ => Parser.ParseCallExpr fuel lx
  end.
Proof. reflexivity. Qed.

(** C2: the claim says that on a prefix [-] or [!] the unary-expression
    parser terminates with a unary node.  In the code the recursive call is
    made on the same token, which is never consumed: with the current token
    [-] or [!] no recursion bound is enough for [ParseUnaryExpr] to
    return. *)
Theorem ParseUnaryExpr_prefix_never_returns :
  forall (fuel : nat) (lx : Lexer),
    Token.GetKind (Parser.Current lx) = Token.MINUS \/
    Token.GetKind (Parser.Current lx) = Token.BANG ->
    Parser.ParseUnaryExpr fuel lx = OutOfFuel.
Proof.
  induction fuel as [| fuel IH]; intros lx H.
  - reflexivity.
  - rewrite ParseUnaryExpr_S.
    destruct H as [H | H]; rewrite H, (IH lx) by (rewrite H; auto);
      reflexivity.
Qed.

(** On the source text [- 1] the first token is [-], and a bound of a
    thousand calls is used up. *)
Lemma ParseUnaryExpr_prefix_never_returns_witness :
  exists lx : Lexer,
    lexer_on "- 1
" = Ok lx /\
    Token.GetKind (Parser.Current lx) = Token.MINUS /\
    Parser.ParseUnaryExpr 1000 lx = OutOfFuel.
Proof.
  eexists. split; [ lazy; reflexivity | ].
  split; [ reflexivity | ].
  apply ParseUnaryExpr_prefix_never_returns. left. reflexivity.
Defined.

Lemma incr_decr_refused_by_term (fuel : nat) (lx : Lexer) :
  Token.GetKind (Parser.Current lx) = Token.INCR \/
  Token.GetKind (Parser.Current lx) = Token.DECR ->
  Parser.ParseTermExpr (S fuel) lx = expecting_term (Parser.Current lx).
Proof.
  intros H. cbn [Parser.ParseTermExpr].
  unfold expecting_term, Token.Is, Token.Print, Parser.Error.
  destruct H as [H | H]; unfold Token.GetKind in H |- *; rewrite H;
    reflexivity.
Qed.

Lemma ParseCallExpr_S (fuel : nat) (lx : Lexer) :
  Parser.ParseCallExpr (S fuel) lx =
  let* (expr, lx) := Parser.ParseTermExpr fuel lx in
  if Token.Is (Parser.Current lx) Token.LPAREN
  then Parser.ParseArgumentList fuel expr lx
  else Ok (expr, lx).
Proof. reflexivity. Qed.

Lemma ParseMulDivExpr_S (fuel : nat) (lx : Lexer) :
  Parser.ParseMulDivExpr (S fuel) lx =
  let* (lhs, lx) := Parser.ParseUnaryExpr fuel lx in
  Parser.ParseMulDivExpr_loop fuel lhs (Token.GetKind (Parser.Current lx)) lx.
Proof. reflexivity. Qed.

Lemma ParseAddSubExpr_S (fuel : nat) (lx : Lexer) :
  Parser.ParseAddSubExpr (S fuel) lx =
  let* (lhs, lx) := Parser.ParseMulDivExpr fuel lx in
  Parser.ParseAddSubExpr_loop fuel lhs (Token.GetKind (Parser.Current lx)) lx.
Proof. reflexivity. Qed.

Lemma ParseComparisonExpr_S (fuel : nat) (lx : Lexer) :
  Parser.ParseComparisonExpr (S fuel) lx =
  let* (lhs, lx) := Parser.ParseAddSubExpr fuel lx in
  Parser.ParseComparisonExpr_loop fuel lhs
    (Token.GetKind (Parser.Current lx)) lx.
Proof. reflexivity. Qed.

Lemma ParseEqualityExpr_S (fuel : nat) (lx : Lexer) :
  Parser.ParseEqualityExpr (S fuel) lx =
  let* (lhs, lx) := Parser.ParseComparisonExpr fuel lx in
  Parser.ParseEqualityExpr_loop fuel lhs
    (Token.GetKind (Parser.Current lx)) lx.
Proof. reflexivity. Qed.

Lemma ParseExpr_S (fuel : nat) (lx : Lexer) :
  Parser.ParseExpr (S fuel) lx = Parser.ParseEqualityExpr fuel lx.
Proof. reflexivity. Qed.

Lemma ParseStmt_S (fuel : nat) (lx : Lexer) :
  Parser.ParseStmt (S fuel) lx =
  match Token.GetKind (Parser.Current lx) with
  | Token.RETURN => Parser.ParseReturnStmt fuel lx
  | Token.WHILE => Parser.ParseWhileStmt fuel lx
  | Token.IF => Parser.ParseIfStmt fuel lx
  | Token.LET => Parser.ParseVarDeclStmt fuel lx
  | Token.LBRACE => Parser.ParseBlockStmt fuel lx
  | _ => let* (expr, lx) := Parser.ParseExpr fuel lx in Ok (ExprStmt expr, lx)
  end.
Proof. reflexivity. Qed.

(** C9: with the current token [++] or [--], parsing an expression raises
    the syntax error that a term was expected, at that token; so does every
    level of the expression grammar when entered at that token, and
    [ParseStmt], which takes it for an expression statement. *)
Theorem incr_decr_expecting_term :
  forall (fuel : nat) (lx : Lexer),
    Token.GetKind (Parser.Current lx) = Token.INCR \/
    Token.GetKind (Parser.Current lx) = Token.DECR ->
    Parser.ParseExpr (8 + fuel) lx = expecting_term (Parser.Current lx) /\
    Parser.ParseEqualityExpr (7 + fuel) lx
      = expecting_term (Parser.Current lx) /\
    Parser.ParseComparisonExpr (6 + fuel) lx
      = expecting_term (Parser.Current lx) /\
    Parser.ParseAddSubExpr (5 + fuel) lx = expecting_term (Parser.Current lx) /\
    Parser.ParseMulDivExpr (4 + fuel) lx = expecting_term (Parser.Current lx) /\
    Parser.ParseUnaryExpr (3 + fuel) lx = expecting_term (Parser.Current lx) /\
    Parser.ParseCallExpr (2 + fuel) lx = expecting_term (Parser.Current lx) /\
    Parser.ParseTermExpr (1 + fuel) lx = expecting_term (Parser.Current lx) /\
    Parser.ParseStmt (9 + fuel) lx = expecting_term (Parser.Current lx).
Proof.
  intros fuel lx H. cbn [Nat.add].
  pose proof (incr_decr_refused_by_term fuel lx H) as T.
  assert (C : Parser.ParseCallExpr (S (S fuel)) lx
              = expecting_term (Parser.Current lx))
    by (rewrite ParseCallExpr_S, T; reflexivity).
  assert (U : Parser.ParseUnaryExpr (S (S (S fuel))) lx
              = expecting_term (Parser.Current lx))
    by (rewrite ParseUnaryExpr_S; destruct H as [H | H]; rewrite H; exact C).
  assert (M : Parser.ParseMulDivExpr (S (S (S (S fuel)))) lx
              = expecting_term (Parser.Current lx))
    by (rewrite ParseMulDivExpr_S, U; reflexivity).
  assert (A : Parser.ParseAddSubExpr (S (S (S (S (S fuel))))) lx
              = expecting_term (Parser.Current lx))
    by (rewrite ParseAddSubExpr_S, M; reflexivity).
  assert (R : Parser.ParseComparisonExpr (S (S (S (S (S (S fuel)))))) lx
              = expecting_term (Parser.Current lx))
    by (rewrite ParseComparisonExpr_S, A; reflexivity).
  assert (Q : Parser.ParseEqualityExpr (S (S (S (S (S (S (S fuel))))))) lx
              = expecting_term (Parser.Current lx))
    by (rewrite ParseEqualityExpr_S, R; reflexivity).
  assert (E : Parser.ParseExpr (S (S (S (S (S (S (S (S fuel)))))))) lx
              = expecting_term (Parser.Current lx))
    by (rewrite ParseExpr_S; exact Q).
  repeat split; try assumption.
  rewrite ParseStmt_S, E.
  destruct H as [H | H]; rewrite H; reflexivity.
Qed.

(** On the source texts [++ x] and [-- x] the first token is the operator,
    and the message names it. *)
Lemma incr_decr_expecting_term_witness :
  exists lx : Lexer,
    lexer_on "++ x
" = Ok lx /\
    Token.GetKind (Parser.Current lx) = Token.INCR /\
    Parser.ParseExpr (8 + 0) lx =
    ParserError (mkLocation "a.imp" 1 2) "unexpected ++, expecting term".
Proof.
  eexists. split; [ lazy; reflexivity | ].
  split; [ reflexivity | ].
  refine (proj1 (incr_decr_expecting_term 0 _ _)). left. reflexivity.
Defined.

Example decr_in_operand_position :
  parse_with Parser.ParseStmt 30 "a * -- b
" = ParserError (mkLocation "a.imp" 1 6) "unexpected --, expecting term".
Proof. vm_compute. reflexivity. Qed.

Lemma ParseIfStmt_S (fuel : nat) (lx : Lexer) :
  Parser.ParseIfStmt (S fuel) lx =
  let* _ := Parser.Check Token.IF lx in
  let* (_, lx) := Parser.Expect Token.LPAREN lx in
  let* lx := Next lx in
  let* (cond, lx) := Parser.ParseExpr fuel lx in
  let* _ := Parser.Check Token.RPAREN lx in
  let* lx := Next lx in
  let* (tstmt, lx) := Parser.ParseStmt fuel lx in
  if negb (Token.Is (Parser.Current lx) Token.ELSE) then
    Ok (IfStmt cond tstmt None, lx)
  else
    let* lx := Next lx in
    let* (fstmt, lx) := Parser.ParseStmt fuel lx in
    Ok (IfStmt cond tstmt (Some fstmt), lx).
Proof. reflexivity. Qed.

Lemma ParseBlockStmt_S (fuel : nat) (lx : Lexer) :
  Parser.ParseBlockStmt (S fuel) lx =
  let* _ := Parser.Check Token.LBRACE lx in
  let* (body, lx) := Parser.ParseBlockStmt_loop fuel [] lx in
  let* _ := Parser.Check Token.RBRACE lx in
  let* lx := Next lx in
  Ok (BlockStmt body, lx).
Proof. reflexivity. Qed.

Lemma ParseBlockStmt_loop_S (fuel : nat) (body : list Stmt) (lx : Lexer) :
  Parser.ParseBlockStmt_loop (S fuel) body lx =
  let* lx := Next lx in
  if negb (Token.Is (Parser.Current lx) Token.RBRACE) then
    let* (stmt, lx) := Parser.ParseStmt fuel lx in
    let body := (body ++ [stmt])%list in
    if negb (Token.Is (Parser.Current lx) Token.SEMI) then Ok (body, lx)
    else Parser.ParseBlockStmt_loop fuel body lx
  else Ok (body, lx).
Proof. reflexivity. Qed.

(** Splits a hypothesis that a chain of binds ended in [Ok] into the
    outcomes of its steps. *)
Ltac invert_bind H :=
  repeat match type of H with
         | @bind (_ * _) _ ?c _ = Ok _ =>
             let E := fresh "E" in
             destruct c as [[? ?] | | | | ] eqn:E; try discriminate H;
             cbn [bind] in H
         | bind ?c _ = Ok _ =>
             let E := fresh "E" in
             destruct c as [? | | | | ] eqn:E; try discriminate H;
             cbn [bind] in H
         end.

(** C7, as the code has it: a successful [ParseIfStmt] went through the
    statement of the true branch, and then either the next token was not
    [else], the node holds the null pointer as its false branch and
    [GetFalseBranchStmt] has no defined result on it; or the token was
    [else], the statement after it is the false branch and the accessor
    returns it. *)
Theorem ParseIfStmt_false_branch :
  forall (fuel : nat) (lx lx' : Lexer) (node : Stmt),
    Parser.ParseIfStmt (S fuel) lx = Ok (node, lx') ->
    exists (cond : Expr) (tstmt : Stmt) (l0 lt : Lexer),
      Parser.ParseStmt fuel l0 = Ok (tstmt, lt) /\
      ((Token.Is (Parser.Current lt) Token.ELSE = false /\
        lx' = lt /\
        node = IfStmt cond tstmt None /\
        GetFalseBranchStmt node = Undefined)
       \/
       (Token.Is (Parser.Current lt) Token.ELSE = true /\
        exists (fstmt : Stmt) (l1 : Lexer),
          Next lt = Ok l1 /\
          Parser.ParseStmt fuel l1 = Ok (fstmt, lx') /\
          node = IfStmt cond tstmt (Some fstmt) /\
          GetFalseBranchStmt node = Ok fstmt)).
Proof.
  intros fuel lx lx' node H.
  rewrite ParseIfStmt_S in H.
  invert_bind H.
  match type of H with
  | context [Token.Is (Parser.Current ?lt) Token.ELSE] =>
      destruct (Token.Is (Parser.Current lt) Token.ELSE) eqn:Helse;
      cbn [negb] in H
  end.
  - invert_bind H. injection H as <- <-.
    match goal with
    | Ht : Parser.ParseStmt fuel ?l0 = Ok (?tstmt, ?lt),
      He : Token.Is (Parser.Current ?lt) Token.ELSE = true |- _ =>
        exists e, tstmt, l0, lt; split; [ exact Ht | ]
    end.
    right. split; [ assumption | ].
    do 2 eexists. repeat split; first [ eassumption | reflexivity ].
  - injection H as <- <-.
    do 4 eexists. split; [ eassumption | ].
    left. repeat split; first [ assumption | reflexivity ].
Qed.

(** C7, as the claim states it, fails on [if (a) b]: the node that
    [ParseStmt] returns holds the null pointer as its false branch, and the
    accessor dereferences it without a test. *)
Lemma if_without_else_holds_null :
  parse_with Parser.ParseStmt 30 "if (a) b
" = Ok (IfStmt (RefExpr "a") (ExprStmt (RefExpr "b")) None,
        (Token.END, Token.NoValue)) /\
  GetFalseBranchStmt (IfStmt (RefExpr "a") (ExprStmt (RefExpr "b")) None)
  = Undefined.
Proof. split; vm_compute; reflexivity. Qed.

(** On [if (a) b] the first disjunct holds. *)
Lemma ParseIfStmt_false_branch_witness :
  exists (lx lx' : Lexer),
    lexer_on "if (a) b
" = Ok lx /\
    Parser.ParseIfStmt (S 20) lx =
      Ok (IfStmt (RefExpr "a") (ExprStmt (RefExpr "b")) None, lx') /\
    exists (cond : Expr) (tstmt : Stmt) (l0 lt : Lexer),
      Parser.ParseStmt 20 l0 = Ok (tstmt, lt) /\
      ((Token.Is (Parser.Current lt) Token.ELSE = false /\
        lx' = lt /\
        IfStmt (RefExpr "a") (ExprStmt (RefExpr "b")) None
          = IfStmt cond tstmt None /\
        GetFalseBranchStmt (IfStmt (RefExpr "a") (ExprStmt (RefExpr "b")) None)
          = Undefined)
       \/
       (Token.Is (Parser.Current lt) Token.ELSE = true /\
        exists (fstmt : Stmt) (l1 : Lexer),
          Next lt = Ok l1 /\
          Parser.ParseStmt 20 l1 = Ok (fstmt, lx') /\
          IfStmt (RefExpr "a") (ExprStmt (RefExpr "b")) None
            = IfStmt cond tstmt (Some fstmt) /\
          GetFalseBranchStmt
            (IfStmt (RefExpr "a") (ExprStmt (RefExpr "b")) None)
            = Ok fstmt)).
Proof.
  do 2 eexists. split; [ lazy; reflexivity | ].
  match goal with
  | |- ?A /\ _ =>
      assert (H : A) by (lazy; reflexivity);
      split; [ exact H | exact (ParseIfStmt_false_branch 20 _ _ _ H) ]
  end.
Defined.

(** C8, as the code has it.  An iteration of the block loop whose statement
    is not followed by a semicolon ends the loop with that statement as the
    last one collected and the token after it as the current one; and
    whatever the loop returned, [ParseBlockStmt] then tests that token: a
    closing brace completes the block, any other token is the syntax error
    that a closing brace was expected. *)
Theorem block_loop_stops_without_semicolon :
  (forall (fuel : nat) (body : list Stmt) (lx lx1 lx2 : Lexer) (stmt : Stmt),
      Next lx = Ok lx1 ->
      Token.Is (Parser.Current lx1) Token.RBRACE = false ->
      Parser.ParseStmt fuel lx1 = Ok (stmt, lx2) ->
      Token.Is (Parser.Current lx2) Token.SEMI = false ->
      Parser.ParseBlockStmt_loop (S fuel) body lx
      = Ok ((body ++ [stmt])%list, lx2))
  /\
  (forall (fuel : nat) (body : list Stmt) (lx lx' : Lexer),
      Token.Is (Parser.Current lx) Token.LBRACE = true ->
      Parser.ParseBlockStmt_loop fuel [] lx = Ok (body, lx') ->
      Parser.ParseBlockStmt (S fuel) lx =
      if Token.Is (Parser.Current lx') Token.RBRACE
      then let* lx'' := Next lx' in Ok (BlockStmt body, lx'')
      else ParserError (Token.GetLocation (Parser.Current lx'))
             ("unexpected " ++ Token.Print (Parser.Current lx')
                            ++ ", expecting }")).
Proof.
  split.
  - intros fuel body lx lx1 lx2 stmt HN Hb HS Hs.
    rewrite ParseBlockStmt_loop_S, HN. cbn [bind].
    rewrite Hb. cbn [negb]. rewrite HS. cbn [bind].
    rewrite Hs. reflexivity.
  - intros fuel body lx lx' Hl Hloop.
    rewrite ParseBlockStmt_S.
    unfold Parser.Check at 1. unfold Token.Is in Hl.
    replace (Token.Kind_eqb Token.LBRACE (Token.GetKind (Parser.Current lx)))
      with true
      by (unfold Token.GetKind; destruct (Token.kind_ (Parser.Current lx));
          try discriminate Hl; reflexivity).
    cbn [negb bind]. rewrite Hloop. cbn [bind].
    unfold Parser.Check, Token.Is, Token.GetKind, Parser.Error.
    destruct (Token.kind_ (Parser.Current lx')); reflexivity.
Qed.

(** C8, as the claim states it, fails on [{ a; b c }]: the loop stops after
    [b] with [c] as the current token, but no block comes out of
    [ParseBlockStmt], which raises the syntax error at [c]. *)
Lemma block_with_missing_semicolon_is_syntax_error :
  parse_with Parser.ParseBlockStmt 30 "{ a; b c }
" = ParserError (mkLocation "a.imp" 1 9) "unexpected IDENT(c), expecting }".
Proof. vm_compute. reflexivity. Qed.

(** On [{ a; b c }]: the second iteration of the loop starts at the
    semicolon after [a], parses [b] and stops at [c]; the whole loop
    returns the two statements, and the block is refused at [c]. *)
Lemma block_loop_stops_without_semicolon_witness :
  exists (lx l1 la lb lc : Lexer),
    lexer_on "{ a; b c }
" = Ok lx /\
    Next lx = Ok l1 /\
    Parser.ParseStmt 18 l1 = Ok (ExprStmt (RefExpr "a"), la) /\
    (Next la = Ok lb /\
     Token.Is (Parser.Current lb) Token.RBRACE = false /\
     Parser.ParseStmt 18 lb = Ok (ExprStmt (RefExpr "b"), lc) /\
     Token.Is (Parser.Current lc) Token.SEMI = false) /\
    Parser.ParseBlockStmt_loop (S 18) [ExprStmt (RefExpr "a")] la
    = Ok ([ExprStmt (RefExpr "a"); ExprStmt (RefExpr "b")], lc) /\
    (Token.Is (Parser.Current lx) Token.LBRACE = true /\
     Parser.ParseBlockStmt_loop 20 [] lx
     = Ok ([ExprStmt (RefExpr "a"); ExprStmt (RefExpr "b")], lc)) /\
    Parser.ParseBlockStmt (S 20) lx =
    ParserError (mkLocation "a.imp" 1 9) "unexpected IDENT(c), expecting }".
Proof.
  do 5 eexists.
  split; [ lazy; reflexivity | ].
  split; [ lazy; reflexivity | ].
  split; [ lazy; reflexivity | ].
  match goal with
  | |- (?A /\ ?B /\ ?C /\ ?D) /\ _ =>
      assert (Ha : A) by (lazy; reflexivity);
      assert (Hb : B) by (lazy; reflexivity);
      assert (Hc : C) by (lazy; reflexivity);
      assert (Hd : D) by (lazy; reflexivity);
      split; [ repeat split; assumption | ];
      split;
      [ exact (proj1 block_loop_stops_without_semicolon
                 18 _ _ _ _ _ Ha Hb Hc Hd) | ]
  end.
  match goal with
  | |- (?A /\ ?B) /\ _ =>
      assert (Hl : A) by reflexivity;
      assert (Hloop : B) by (lazy; reflexivity);
      split; [ exact (conj Hl Hloop) | ];
      exact (proj2 block_loop_stops_without_semicolon 20 _ _ _ Hl Hloop)
  end.
Defined.

Example block_without_trailing_semicolon :
  parse_with Parser.ParseBlockStmt 30 "{ a; b }
" = Ok (BlockStmt [ExprStmt (RefExpr "a"); ExprStmt (RefExpr "b")],
        (Token.END, Token.NoValue)).
Proof. vm_compute. reflexivity. Qed.

(* ------------------------------------------------------------------------- *)
(** * What starts no expression *)

Lemma term_rejects (fuel : nat) (lx : Lexer) :
  starts_nothing (Token.GetKind (Parser.Current lx)) = true ->
  Parser.ParseTermExpr (S fuel) lx = expecting_term (Parser.Current lx).
Proof.
  intros H. cbn [Parser.ParseTermExpr].
  unfold expecting_term, Token.Is, Token.Print, Parser.Error, Token.GetKind
    in *.
  destruct (Token.kind_ (Parser.Current lx)); try discriminate H;
    reflexivity.
Qed.

Lemma rejected_at_every_level :
  forall (fuel : nat) (lx : Lexer),
    starts_nothing (Token.GetKind (Parser.Current lx)) = true ->
    Parser.ParseStmt (9 + fuel) lx = expecting_term (Parser.Current lx) /\
    Parser.ParseExpr (8 + fuel) lx = expecting_term (Parser.Current lx) /\
    Parser.ParseEqualityExpr (7 + fuel) lx
      = expecting_term (Parser.Current lx) /\
    Parser.ParseComparisonExpr (6 + fuel) lx
      = expecting_term (Parser.Current lx) /\
    Parser.ParseAddSubExpr (5 + fuel) lx = expecting_term (Parser.Current lx) /\
    Parser.ParseMulDivExpr (4 + fuel) lx = expecting_term (Parser.Current lx) /\
    Parser.ParseUnaryExpr (3 + fuel) lx = expecting_term (Parser.Current lx) /\
    Parser.ParseCallExpr (2 + fuel) lx = expecting_term (Parser.Current lx).
Proof.
  intros fuel lx H. cbn [Nat.add].
  pose proof (term_rejects fuel lx H) as T.
  assert (C : Parser.ParseCallExpr (S (S fuel)) lx
              = expecting_term (Parser.Current lx))
    by (rewrite ParseCallExpr_S, T; reflexivity).
  assert (U : Parser.ParseUnaryExpr (S (S (S fuel))) lx
              = expecting_term (Parser.Current lx)).
  { rewrite ParseUnaryExpr_S.
    destruct (Token.GetKind (Parser.Current lx)); try discriminate H;
      exact C. }
  assert (M : Parser.ParseMulDivExpr (S (S (S (S fuel)))) lx
              = expecting_term (Parser.Current lx))
    by (rewrite ParseMulDivExpr_S, U; reflexivity).
  assert (A : Parser.ParseAddSubExpr (S (S (S (S (S fuel))))) lx
              = expecting_term (Parser.Current lx))
    by (rewrite ParseAddSubExpr_S, M; reflexivity).
  assert (R : Parser.ParseComparisonExpr (S (S (S (S (S (S fuel)))))) lx
              = expecting_term (Parser.Current lx))
    by (rewrite ParseComparisonExpr_S, A; reflexivity).
  assert (Q : Parser.ParseEqualityExpr (S (S (S (S (S (S (S fuel))))))) lx
              = expecting_term (Parser.Current lx))
    by (rewrite ParseEqualityExpr_S, R; reflexivity).
  assert (E : Parser.ParseExpr (S (S (S (S (S (S (S (S fuel)))))))) lx
              = expecting_term (Parser.Current lx))
    by (rewrite ParseExpr_S; exact Q).
  repeat split; try assumption.
  rewrite ParseStmt_S, E.
  destruct (Token.GetKind (Parser.Current lx)); try discriminate H;
    reflexivity.
Qed.


(** A token that starts neither a statement nor an expression is refused
    wherever one of them is expected: [ParseStmt], [ParseExpr] and every
    level of the expression grammar raise the syntax error that a term was
    expected, at that token.  The closing punctuation, the binary
    operators, [func], [else] and the END of the input are such tokens. *)
Theorem token_that_starts_nothing :
  forall (fuel : nat) (lx : Lexer),
    starts_nothing (Token.GetKind (Parser.Current lx)) = true ->
    Parser.ParseStmt (9 + fuel) lx = expecting_term (Parser.Current lx) /\
    Parser.ParseExpr (8 + fuel) lx = expecting_term (Parser.Current lx) /\
    Parser.ParseEqualityExpr (7 + fuel) lx
      = expecting_term (Parser.Current lx) /\
    Parser.ParseComparisonExpr (6 + fuel) lx
      = expecting_term (Parser.Current lx) /\
    Parser.ParseAddSubExpr (5 + fuel) lx = expecting_term (Parser.Current lx) /\
    Parser.ParseMulDivExpr (4 + fuel) lx = expecting_term (Parser.Current lx) /\
    Parser.ParseUnaryExpr (3 + fuel) lx = expecting_term (Parser.Current lx) /\
    Parser.ParseCallExpr (2 + fuel) lx = expecting_term (Parser.Current lx).
Proof. exact rejected_at_every_level. Qed.

(** An empty parenthesis, and an expression that ends after an operator. *)
Lemma token_that_starts_nothing_witness :
  exists lx : Lexer,
    lexer_on ") x
" = Ok lx /\
    starts_nothing (Token.GetKind (Parser.Current lx)) = true /\
    Parser.ParseExpr (8 + 0) lx
    = ParserError (mkLocation "a.imp" 1 2) "unexpected ), expecting term".
Proof.
  eexists. split; [ lazy; reflexivity | ].
  split; [ reflexivity | ].
  refine (proj1 (proj2 (token_that_starts_nothing 0 _ _))). reflexivity.
Defined.

Example expression_ends_after_operator :
  parse_with Parser.ParseExpr 20 "1 +
" = ParserError (mkLocation "a.imp" 2 1) "unexpected END, expecting term".
Proof. vm_compute. reflexivity. Qed.

(* ------------------------------------------------------------------------- *)
(** * Statements and modules *)

Lemma Check_ok (kind : Token.Kind) (lx : Lexer) (tk : Token.t) :
  Parser.Check kind lx = Ok tk ->
  Token.GetKind (Parser.Current lx) = kind /\ tk = Parser.Current lx.
Proof.
  unfold Parser.Check, Parser.Error.
  destruct (Token.Kind_eqb kind (Token.GetKind (Parser.Current lx))) eqn:E;
    cbn [negb]; intros H; [ | discriminate H ].
  injection H as <-. split; [ | reflexivity ].
  destruct kind; destruct (Token.GetKind (Parser.Current lx));
    try discriminate E; reflexivity.
Qed.

Lemma ParseVarDeclStmt_ok (fuel : nat) (lx lx' : Lexer) (s : Stmt) :
  Parser.ParseVarDeclStmt fuel lx = Ok (s, lx') ->
  (exists (name type : string) (expr : Expr), s = VarDeclStmt name type expr)
  /\ Token.GetKind (Parser.Current lx') = Token.SEMI.
Proof.
  destruct fuel as [| fuel]; [ discriminate | ].
  cbn [Parser.ParseVarDeclStmt]. intros H. invert_bind H.
  injection H as <- <-.
  match goal with
  | E : Parser.Check Token.SEMI _ = Ok _ |- _ =>
      apply Check_ok in E; destruct E as [E _]
  end.
  split; [ eauto | assumption ].
Qed.

(** The first token of a statement decides its node: [return], [while],
    [if], [let] and an opening brace give the statement of that name, every
    other token an expression statement.  After a variable declaration the
    current token is the semicolon that closes it: [ParseVarDeclStmt]
    demands it and leaves it in place. *)
Theorem ParseStmt_node :
  forall (fuel : nat) (lx lx' : Lexer) (s : Stmt),
    Parser.ParseStmt fuel lx = Ok (s, lx') ->
    match Token.GetKind (Parser.Current lx) with
    | Token.RETURN => exists expr, s = ReturnStmt expr
    | Token.WHILE => exists cond stmt, s = WhileStmt cond stmt
    | Token.IF => exists cond tstmt fstmt, s = IfStmt cond tstmt fstmt
    | Token.LET =>
        (exists name type expr, s = VarDeclStmt name type expr) /\
        Token.GetKind (Parser.Current lx') = Token.SEMI
    | Token.LBRACE => exists body, s = BlockStmt body
    | _ => exists expr, s = ExprStmt expr
    end.
Proof.
  intros fuel lx lx' s H.
  destruct fuel as [| fuel]; [ discriminate H | ].
  rewrite ParseStmt_S in H.
  destruct (Token.GetKind (Parser.Current lx));
    try (invert_bind H; injection H as <- <-; eauto; fail);
    try (apply ParseVarDeclStmt_ok in H; exact H);
    (destruct fuel as [| fuel]; [ discriminate H | ]).
  - cbn [Parser.ParseReturnStmt] in H. invert_bind H.
    injection H as <- <-. eauto.
  - cbn [Parser.ParseWhileStmt] in H. invert_bind H.
    injection H as <- <-. eauto.
  - rewrite ParseIfStmt_S in H. invert_bind H.
    match type of H with
    | (if ?b then _ else _) = _ => destruct b
    end.
    + injection H as <- <-. eauto.
    + invert_bind H. injection H as <- <-. eauto.
  - rewrite ParseBlockStmt_S in H. invert_bind H.
    injection H as <- <-. eauto.
Qed.

Lemma ParseStmt_node_witness :
  exists (lx lx' : Lexer) (s : Stmt),
    lexer_on "let x : int = 1 + 2; y
" = Ok lx /\
    Parser.ParseStmt 20 lx = Ok (s, lx') /\
    s = VarDeclStmt "x" "int"
          (BinaryExpr BinaryExpr.ADD (IntExpr 1) (IntExpr 2)) /\
    Token.GetKind (Parser.Current lx') = Token.SEMI.
Proof.
  do 3 eexists. split; [ lazy; reflexivity | ].
  match goal with
  | |- ?A /\ _ =>
      assert (H : A) by (lazy; reflexivity);
      split; [ exact H | split; [ reflexivity | ] ];
      exact (proj2 (ParseStmt_node 20 _ _ _ H))
  end.
Defined.



(** A variable declaration cannot stand at the top level of a module:
    [ParseVarDeclStmt] leaves its semicolon as the current token, and the
    loop of [ParseModule] takes that semicolon for the start of the next
    statement, which is the syntax error that a term was expected. *)
Theorem top_level_let_is_rejected :
  forall (fuel : nat) (body : list TopLevelStmt) (lx lx' : Lexer) (s : Stmt),
    Token.GetKind (Parser.Current lx) = Token.LET ->
    Parser.ParseStmt (10 + fuel) lx = Ok (s, lx') ->
    Token.GetKind (Parser.Current lx') = Token.SEMI /\
    ParseModule_loop (11 + fuel) body lx
    = expecting_term (Parser.Current lx').
Proof.
  intros fuel body lx lx' s Hlet Hs.
  assert (Hsemi : Token.GetKind (Parser.Current lx') = Token.SEMI).
  { pose proof (ParseStmt_S (9 + fuel) lx) as E.
    change (S (9 + fuel)) with (10 + fuel) in E.
    rewrite E, Hlet in Hs. apply ParseVarDeclStmt_ok in Hs. apply Hs. }
  split; [ exact Hsemi | ].
  change (11 + fuel) with (S (10 + fuel)). cbn [ParseModule_loop].
  unfold Token_bool, Token.Is. unfold Token.GetKind in Hlet. rewrite Hlet.
  cbn [Token.Kind_eqb negb]. rewrite Hs. cbn [bind].
  change (10 + fuel) with (S (9 + fuel)). cbn [ParseModule_loop].
  unfold Token_bool, Token.Is. unfold Token.GetKind in Hsemi. rewrite Hsemi.
  cbn [Token.Kind_eqb negb].
  rewrite (proj1 (rejected_at_every_level fuel lx'
                    ltac:(unfold Token.GetKind; rewrite Hsemi; reflexivity))).
  reflexivity.
Qed.

Lemma top_level_let_is_rejected_witness :
  exists (lx lx' : Lexer) (s : Stmt),
    lexer_on "let x : int = 1; x
" = Ok lx /\
    (Token.GetKind (Parser.Current lx) = Token.LET /\
     Parser.ParseStmt (10 + 0) lx = Ok (s, lx')) /\
    ParseModule_loop (11 + 0) [] lx
    = ParserError (mkLocation "a.imp" 1 17) "unexpected ;, expecting term".
Proof.
  do 3 eexists. split; [ lazy; reflexivity | ].
  match goal with
  | |- (?A /\ ?B) /\ _ =>
      assert (Ha : A) by reflexivity;
      assert (Hb : B) by (lazy; reflexivity);
      split; [ exact (conj Ha Hb) | ];
      exact (proj2 (top_level_let_is_rejected 0 [] _ _ _ Ha Hb))
  end.
Defined.

Lemma unary_prefix_loops (fuel : nat) :
  forall lx : Lexer,
    Token.GetKind (Parser.Current lx) = Token.MINUS \/
    Token.GetKind (Parser.Current lx) = Token.BANG ->
    Parser.ParseUnaryExpr fuel lx = OutOfFuel.
Proof.
  induction fuel as [| fuel IH]; intros lx H; [ reflexivity | ].
  rewrite ParseUnaryExpr_S.
  destruct H as [H | H]; rewrite H, (IH lx) by (rewrite H; auto);
    reflexivity.
Qed.

(** No expression, statement or module that starts with a prefix [-] or
    [!] is ever parsed: the endless recursion of [ParseUnaryExpr] is
    reached from every level of the expression grammar above it, from
    [ParseStmt], which takes the token for the start of an expression
    statement, and from the loop of [ParseModule]. *)
Theorem prefix_operator_hangs_the_parser :
  forall (fuel : nat) (lx : Lexer),
    Token.GetKind (Parser.Current lx) = Token.MINUS \/
    Token.GetKind (Parser.Current lx) = Token.BANG ->
    Parser.ParseMulDivExpr fuel lx = OutOfFuel /\
    Parser.ParseAddSubExpr fuel lx = OutOfFuel /\
    Parser.ParseComparisonExpr fuel lx = OutOfFuel /\
    Parser.ParseEqualityExpr fuel lx = OutOfFuel /\
    Parser.ParseExpr fuel lx = OutOfFuel /\
    Parser.ParseStmt fuel lx = OutOfFuel /\
    (forall body, ParseModule_loop fuel body lx = OutOfFuel).
Proof.
  intros fuel lx H.
  assert (M : forall n, Parser.ParseMulDivExpr n lx = OutOfFuel).
  { intros [| n]; [ reflexivity | ].
    rewrite ParseMulDivExpr_S, (unary_prefix_loops n lx H). reflexivity. }
  assert (A : forall n, Parser.ParseAddSubExpr n lx = OutOfFuel).
  { intros [| n]; [ reflexivity | ].
    rewrite ParseAddSubExpr_S, M. reflexivity. }
  assert (R : forall n, Parser.ParseComparisonExpr n lx = OutOfFuel).
  { intros [| n]; [ reflexivity | ].
    rewrite ParseComparisonExpr_S, A. reflexivity. }
  assert (Q : forall n, Parser.ParseEqualityExpr n lx = OutOfFuel).
  { intros [| n]; [ reflexivity | ].
    rewrite ParseEqualityExpr_S, R. reflexivity. }
  assert (E : forall n, Parser.ParseExpr n lx = OutOfFuel).
  { intros [| n]; [ reflexivity | ]. rewrite ParseExpr_S. apply Q. }
  assert (S_ : forall n, Parser.ParseStmt n lx = OutOfFuel).
  { intros [| n]; [ reflexivity | ].
    rewrite ParseStmt_S, E.
    destruct H as [H | H]; rewrite H; reflexivity. }
  repeat split; auto.
  intros body. destruct fuel as [| n]; [ reflexivity | ].
  cbn [ParseModule_loop]. rewrite S_.
  unfold Token_bool, Token.Is.
  destruct H as [H | H]; unfold Token.GetKind in H; rewrite H; reflexivity.
Qed.

Lemma prefix_operator_hangs_the_parser_witness :
  exists lx : Lexer,
    lexer_on "- x
" = Ok lx /\
    Token.GetKind (Parser.Current lx) = Token.MINUS /\
    Parser.ParseStmt 500 lx = OutOfFuel /\
    ParseModule_loop 500 [] lx = OutOfFuel.
Proof.
  eexists. split; [ lazy; reflexivity | ].
  split; [ reflexivity | ].
  match goal with
  | |- Parser.ParseStmt _ ?l = _ /\ _ =>
      pose proof (prefix_operator_hangs_the_parser 500 l
                    (or_introl eq_refl)) as H
  end.
  split; [ apply H | apply H ].
Defined.

(* ------------------------------------------------------------------------- *)
(** * Properties of the interpreter *)

Section Frames.

Variables (prog : Program) (out : string) (inp : istream).

(** An interpreter of this program and these streams. *)
Let at_ (pc : nat) (stack : list Value.t) : Interp :=
  mkInterp prog pc stack out inp.

Lemma Pop_top (pc : nat) (below : list Value.t) (v : Value.t) :
  Pop (at_ pc (below ++ [v])) = Done (v, at_ pc below).
Proof.
  unfold at_, Pop, set_stack. cbn [stack_ prog_ pc_ cout cin].
  rewrite rev_app_distr. cbn [List.rev List.app].
  rewrite rev_involutive. reflexivity.
Qed.

Lemma Peek_top (pc : nat) (below : list Value.t) (v : Value.t) :
  Peek (at_ pc (below ++ [v])) = Done v.
Proof.
  unfold at_, Peek. cbn [stack_]. rewrite rev_app_distr. reflexivity.
Qed.

Lemma shrink_suffix (pc : nat) (below gone : list Value.t) :
  shrink (List.length gone) (at_ pc (below ++ gone)) = Done (at_ pc below).
Proof.
  unfold at_, shrink, set_stack. cbn [stack_ prog_ pc_ cout cin].
  rewrite length_app.
  replace (List.length gone <=? List.length below + List.length gone)
    with true by (symmetry; apply Nat.leb_le; lia).
  replace (List.length below + List.length gone - List.length gone)
    with (List.length below + 0) by lia.
  rewrite firstn_app_2. cbn [firstn]. rewrite app_nil_r. reflexivity.
Qed.

End Frames.

(** A primitive leaves [pc_] alone. *)
Lemma invoke_keeps_pc (f : RuntimeFn) (st st' : Interp) :
  invoke f st = Done st' -> pc_ st' = pc_ st /\ prog_ st' = prog_ st.
Proof.
  destruct f; cbn [invoke];
    unfold PrintInt, PrintBool, ReadInt, PeekInt, PeekBool, Peek.
  - destruct (List.rev (stack_ st)) as [| [] ?]; cbn [vm_bind];
      try discriminate; intros [= <-]; split; reflexivity.
  - destruct (extract_int64 (cin st)) as [[val |] inp];
      try discriminate; intros [= <-]; split; reflexivity.
  - destruct (List.rev (stack_ st)) as [| [] ?]; cbn [vm_bind];
      try discriminate; intros [= <-]; split; reflexivity.
Qed.

(** C4: on a stack [..., a_1..a_nargs, return address, l_1..l_depth, v],
    [RET depth nargs] continues at the return address with the stack
    [..., v], which is [depth + nargs + 1] slots lower; the return address
    is what the removal of [v] and of the [depth] locals leaves on top, the
    arguments still below it. *)
Theorem RET_unwinds_frame :
  forall (prog : Program) (pc p0 p1 p2 : nat) (out : string) (inp : istream)
         (below args locals : list Value.t) (ra depth nargs : nat)
         (v : Value.t),
    Read_Opcode prog pc = (Opcode.RET, p0) ->
    Read_unsigned prog p0 = (depth, p1) ->
    Read_unsigned prog p1 = (nargs, p2) ->
    List.length locals = depth ->
    List.length args = nargs ->
    let st :=
      mkInterp prog pc
        (below ++ args ++ [Value.Addr ra] ++ locals ++ [v])%list out inp in
    let st' := mkInterp prog ra (below ++ [v])%list out inp in
    step st = Done (false, st') /\
    List.length (stack_ st') + (depth + nargs + 1) = List.length (stack_ st) /\
    (do* (_, s) := Pop (set_pc st p2) in shrink depth s)
    = Done (mkInterp prog p2 (below ++ args ++ [Value.Addr ra])%list out inp).
Proof.
  intros prog pc p0 p1 p2 out inp below args locals ra depth nargs v
         Hop Hd Hn Hl Ha st st'.
  subst st st' depth nargs.
  assert (Hpop :
    Pop (mkInterp prog p2
           (below ++ args ++ [Value.Addr ra] ++ locals ++ [v])%list out inp)
    = Done (v, mkInterp prog p2
                 ((below ++ args ++ [Value.Addr ra]) ++ locals)%list out inp)).
  { rewrite <- Pop_top. f_equal. f_equal.
    repeat rewrite <- app_assoc. reflexivity. }
  split; [ | split ].
  - unfold step, exec_RET, Read, set_pc.
    cbn [prog_ pc_ stack_ cout cin]. rewrite Hop.
    cbn [prog_ pc_ stack_ cout cin]. rewrite Hd.
    cbn [prog_ pc_ stack_ cout cin]. rewrite Hn.
    cbn [prog_ pc_ stack_ cout cin].
    rewrite Hpop. cbn [vm_bind]. rewrite shrink_suffix. cbn [vm_bind].
    unfold PopAddr.
    replace (below ++ args ++ [Value.Addr ra])%list
      with ((below ++ args) ++ [Value.Addr ra])%list
      by (rewrite <- app_assoc; reflexivity).
    rewrite Pop_top. cbn [vm_bind]. unfold set_pc.
    cbn [prog_ pc_ stack_ cout cin].
    rewrite shrink_suffix. cbn [vm_bind]. reflexivity.
  - cbn [stack_]. repeat rewrite length_app. cbn [List.length]. lia.
  - unfold set_pc. cbn [prog_ pc_ stack_ cout cin].
    rewrite Hpop. cbn [vm_bind]. apply shrink_suffix.
Qed.

Lemma RET_unwinds_frame_witness :
  step (mkInterp ret_program 0
          [Value.Bool true; Value.Int 3; Value.Int 4; Value.Addr 17;
           Value.Int 5; Value.Int 60] "" (stdin ""))
  = Done (false, mkInterp ret_program 17 [Value.Bool true; Value.Int 60] "" (stdin ""))
  /\ 2 + (1 + 2 + 1) = 6.
Proof.
  pose proof (RET_unwinds_frame ret_program 0 1 2 3 "" (stdin "")
                [Value.Bool true] [Value.Int 3; Value.Int 4] [Value.Int 5]
                17 1 2 (Value.Int 60)
                eq_refl eq_refl eq_refl eq_refl eq_refl) as H.
  cbv zeta in H. destruct H as [Hstep [Hlen _]].
  split; [ exact Hstep | exact Hlen ].
Defined.

(** C5: CALL pops the callee.  An integer, a boolean or a string raises
    [RuntimeError] with the stack below the callee as the state left
    behind; a code address pushes the offset of the next instruction and
    jumps to the address; a primitive is run at once on the stack below the
    callee: [print_int] and [print_bool] write the top of that stack and
    push a copy of it, [read_int] pushes what [std::cin] gives, and the
    loop goes on at the next instruction.  A primitive that finds another
    value than it prints raises the typed error, and one that finds no
    value to print, or no input to read, has no defined behaviour. *)
Theorem CALL_dispatches_on_callee :
  forall (prog : Program) (pc next : nat) (out : string) (inp : istream)
         (below : list Value.t) (callee : Value.t),
    Read_Opcode prog pc = (Opcode.CALL, next) ->
    let st := mkInterp prog pc (below ++ [callee])%list out inp in
    let popped := mkInterp prog next below out inp in
    step st =
    match callee with
    | Value.Int _ => Throw (RuntimeError "cannot call integer") popped
    | Value.Bool _ => Throw (RuntimeError "cannot call boolean") popped
    | Value.Str _ => Throw (RuntimeError "cannot call string") popped
    | Value.Addr a =>
        Done (false,
              mkInterp prog a (below ++ [Value.Addr next])%list out inp)
    | Value.Proto print_int =>
        match List.rev below with
        | Value.Int i :: _ =>
            Done (false,
                  mkInterp prog next (below ++ [Value.Int i])%list
                    (out ++ dec_of_Z i) inp)
        | _ :: _ => Throw (RuntimeError_tag Value.INT) popped
        | [] => UB
        end
    | Value.Proto print_bool =>
        match List.rev below with
        | Value.Bool b :: _ =>
            Done (false,
                  mkInterp prog next (below ++ [Value.Bool b])%list
                    (out ++ (if b then "true" else "false")) inp)
        | _ :: _ => Throw (RuntimeError_tag Value.BOOL) popped
        | [] => UB
        end
    | Value.Proto read_int =>
        match extract_int64 inp with
        | (Some val, inp') =>
            Done (false,
                  mkInterp prog next (below ++ [Value.Int val])%list out inp')
        | (None, _) => UB
        end
    end
    /\
    (forall (f : RuntimeFn) (halt : bool) (st' : Interp),
        callee = Value.Proto f ->
        step st = Done (halt, st') ->
        halt = false /\ pc_ st' = next /\ invoke f popped = Done st').
Proof.
  intros prog pc next out inp below callee Hop st popped.
  assert (Hstep : step st =
                  do* s := (match callee with
                            | Value.Proto f => invoke f popped
                            | Value.Addr a =>
                                Done (set_pc (Push (Value.Addr next) popped) a)
                            | Value.Int _ =>
                                Throw (RuntimeError "cannot call integer") popped
                            | Value.Bool _ =>
                                Throw (RuntimeError "cannot call boolean") popped
                            | Value.Str _ =>
                                Throw (RuntimeError "cannot call string") popped
                            end) in Done (false, s)).
  { subst st popped. unfold step, exec_CALL, Read, set_pc.
    cbn [prog_ pc_ stack_ cout cin]. rewrite Hop.
    cbn [prog_ pc_ stack_ cout cin]. rewrite Pop_top. cbn [vm_bind].
    destruct callee; reflexivity. }
  split.
  - rewrite Hstep. destruct callee as [ | | | | f]; try reflexivity.
    subst popped. destruct f; cbn [invoke].
    + unfold PrintInt, PeekInt, Peek. cbn [stack_].
      destruct (List.rev below) as [| [] ?]; reflexivity.
    + unfold ReadInt. cbn [cin].
      destruct (extract_int64 inp) as [[val |] inp']; reflexivity.
    + unfold PrintBool, PeekBool, Peek. cbn [stack_].
      destruct (List.rev below) as [| [] ?]; reflexivity.
  - intros f halt st' -> H. rewrite Hstep in H.
    destruct (invoke f popped) as [s | |] eqn:E; cbn [vm_bind] in H;
      try discriminate H.
    injection H as <- <-.
    destruct (invoke_keeps_pc _ _ _ E) as [Hpc _].
    repeat split. exact Hpc.
Qed.

(** CALL on a pushed integer, on a code address, on [print_int], and on
    [read_int] with a number to read and at the end of the input. *)
Lemma CALL_dispatches_on_callee_witness :
  step (mkInterp call_program 0 [Value.Int 1; Value.Int 7] "" (stdin ""))
  = Throw (RuntimeError "cannot call integer")
          (mkInterp call_program 1 [Value.Int 1] "" (stdin ""))
  /\
  step (mkInterp call_program 0 [Value.Int 1; Value.Addr 40] "" (stdin ""))
  = Done (false,
          mkInterp call_program 40 [Value.Int 1; Value.Addr 1] "" (stdin ""))
  /\
  step (mkInterp call_program 0 [Value.Int 1; Value.Proto print_int] ""
          (stdin ""))
  = Done (false,
          mkInterp call_program 1 [Value.Int 1; Value.Int 1] "1" (stdin ""))
  /\
  step (mkInterp call_program 0 [Value.Int 1; Value.Proto read_int] ""
          (stdin " -42 7"))
  = Done (false,
          mkInterp call_program 1 [Value.Int 1; Value.Int (-42)] ""
            (stdin " 7"))
  /\
  step (mkInterp call_program 0 [Value.Int 1; Value.Proto read_int] ""
          (stdin ""))
  = UB.
Proof.
  split; [ | split; [ | split; [ | split ] ] ].
  - exact (proj1 (CALL_dispatches_on_callee call_program 0 1 "" (stdin "")
                    [Value.Int 1] (Value.Int 7) eq_refl)).
  - exact (proj1 (CALL_dispatches_on_callee call_program 0 1 "" (stdin "")
                    [Value.Int 1] (Value.Addr 40) eq_refl)).
  - exact (proj1 (CALL_dispatches_on_callee call_program 0 1 "" (stdin "")
                    [Value.Int 1] (Value.Proto print_int) eq_refl)).
  - exact (proj1 (CALL_dispatches_on_callee call_program 0 1 ""
                    (stdin " -42 7") [Value.Int 1] (Value.Proto read_int)
                    eq_refl)).
  - exact (proj1 (CALL_dispatches_on_callee call_program 0 1 "" (stdin "")
                    [Value.Int 1] (Value.Proto read_int) eq_refl)).
Defined.

(** C10: [PrintInt], the primitive registered as [print_int], on a stack
    whose top is the integer [i] leaves every slot in place, writes [i] to
    the output and appends a copy of [i]: the stack is one slot higher with
    [i] twice on top.  [PrintBool], registered as [print_bool], does the
    same with a boolean. *)
Theorem print_duplicates_top :
  forall (prog : Program) (pc : nat) (out : string) (inp : istream)
         (below : list Value.t) (i : Z) (b : bool),
    (kRuntimeFns "print_int" = Some print_int /\
     invoke print_int = PrintInt /\
     PrintInt (mkInterp prog pc (below ++ [Value.Int i])%list out inp)
     = Done (mkInterp prog pc (below ++ [Value.Int i; Value.Int i])%list
                      (out ++ dec_of_Z i) inp))
    /\
    (kRuntimeFns "print_bool" = Some print_bool /\
     invoke print_bool = PrintBool /\
     PrintBool (mkInterp prog pc (below ++ [Value.Bool b])%list out inp)
     = Done (mkInterp prog pc (below ++ [Value.Bool b; Value.Bool b])%list
                      (out ++ (if b then "true" else "false")) inp))
    /\
    List.length (below ++ [Value.Int i; Value.Int i])
    = S (List.length (below ++ [Value.Int i])) /\
    List.length (below ++ [Value.Bool b; Value.Bool b])
    = S (List.length (below ++ [Value.Bool b])).
Proof.
  intros prog pc out inp below i b.
  split; [ | split; [ | split ] ].
  - repeat split. unfold PrintInt, PeekInt. rewrite Peek_top.
    cbn [vm_bind]. unfold Push, set_stack, set_cout.
    cbn [prog_ pc_ stack_ cout cin]. rewrite <- app_assoc. reflexivity.
  - repeat split. unfold PrintBool, PeekBool. rewrite Peek_top.
    cbn [vm_bind]. unfold Push, set_stack, set_cout.
    cbn [prog_ pc_ stack_ cout cin]. rewrite <- app_assoc. reflexivity.
  - repeat rewrite length_app. cbn [List.length]. lia.
  - repeat rewrite length_app. cbn [List.length]. lia.
Qed.

Example print_int_example :
  step (mkInterp call_program 0
          [Value.Int (-42); Value.Proto print_int] "x = " (stdin ""))
  = Done (false, mkInterp call_program 1
                   [Value.Int (-42); Value.Int (-42)] "x = -42" (stdin "")).
Proof. vm_compute. reflexivity. Qed.

(** [std::cin >> val] on a signed number, at the end of the input, on text
    that is no number, after a failed extraction, and on numbers at and
    beyond the bounds of [int64_t]. *)
Example extract_int64_examples :
  (extract_int64 (stdin "  +12")
   = (Some 12%Z, mkIstream [] true false))
  /\ (extract_int64 (stdin " ") = (None, mkIstream [] true true))
  /\ (extract_int64 (stdin "abc")
      = (Some 0%Z, mkIstream (list_ascii_of_string "abc") false true))
  /\ (extract_int64 (mkIstream (list_ascii_of_string "7") false true)
      = (None, mkIstream (list_ascii_of_string "7") false true))
  /\ (extract_int64 (stdin "-9223372036854775808;")
      = (Some (- 2 ^ 63)%Z, mkIstream [";"%char] false false))
  /\ (extract_int64 (stdin "9223372036854775808;")
      = (Some (2 ^ 63 - 1)%Z, mkIstream [";"%char] false true)).
Proof. vm_compute. repeat split. Qed.

(** [read_int] on text that is no number pushes the 0 that the failed
    extraction stores; called again, it finds the stream failed and pushes
    a value that was never set. *)
Example read_int_after_failure :
  ReadInt (mkInterp call_program 1 [] "" (stdin "abc"))
  = Done (mkInterp call_program 1 [Value.Int 0] ""
            (mkIstream (list_ascii_of_string "abc") false true))
  /\ ReadInt (mkInterp call_program 1 [Value.Int 0] ""
             (mkIstream (list_ascii_of_string "abc") false true))
  = UB.
Proof. vm_compute. split; reflexivity. Qed.

(* ------------------------------------------------------------------------- *)
(** * Instructions and the stack *)

Ltac invert_vm H :=
  repeat match type of H with
         | @vm_bind (_ * _) _ ?c _ = Done _ =>
             let E := fresh "E" in
             destruct c as [[? ?] | ? ? | ] eqn:E; try discriminate H;
             cbn [vm_bind] in H
         | vm_bind ?c _ = Done _ =>
             let E := fresh "E" in
             destruct c as [? | ? ? | ] eqn:E; try discriminate H;
             cbn [vm_bind] in H
         end.

(** [st'] differs from [st] in the stack at most. *)
Lemma Pop_inv (st st' : Interp) (v : Value.t) :
  Pop st = Done (v, st') ->
  st' = set_stack st (stack_ st') /\ stack_ st = (stack_ st' ++ [v])%list.
Proof.
  unfold Pop. destruct (List.rev (stack_ st)) as [| x below] eqn:E;
    [ discriminate | ].
  intros H. injection H as <- <-. cbn [stack_ set_stack]. split.
  - reflexivity.
  - rewrite <- (rev_involutive (stack_ st)), E. reflexivity.
Qed.

Lemma shrink_inv (k : nat) (st st' : Interp) :
  shrink k st = Done st' ->
  st' = set_stack st (stack_ st') /\
  List.length (stack_ st') + k = List.length (stack_ st).
Proof.
  unfold shrink. destruct (k <=? List.length (stack_ st)) eqn:E;
    [ | discriminate ].
  intros H. injection H as <-. cbn [stack_ set_stack].
  apply Nat.leb_le in E. split; [ reflexivity | ].
  rewrite length_firstn. lia.
Qed.

Lemma typed_pop_inv :
  (forall st st' i, PopInt st = Done (i, st') ->
     st' = set_stack st (stack_ st') /\
     stack_ st = (stack_ st' ++ [Value.Int i])%list) /\
  (forall st st' b, PopBool st = Done (b, st') ->
     st' = set_stack st (stack_ st') /\
     stack_ st = (stack_ st' ++ [Value.Bool b])%list) /\
  (forall st st' a, PopAddr st = Done (a, st') ->
     st' = set_stack st (stack_ st') /\
     stack_ st = (stack_ st' ++ [Value.Addr a])%list).
Proof.
  split; [ | split ]; intros st st' x H;
    unfold PopInt, PopBool, PopAddr in H; invert_vm H;
    match goal with
    | E : Pop _ = Done (?v, _) |- _ =>
        destruct v; try discriminate H; injection H as <- <-;
        apply Pop_inv in E; apply E
    end.
Qed.

Ltac invert_steps :=
  repeat match goal with
         | H : @vm_bind (_ * _) _ ?c _ = Done _ |- _ =>
             let E := fresh "E" in
             destruct c as [[? ?] | ? ? | ] eqn:E; try discriminate H;
             cbn [vm_bind] in H
         | H : vm_bind ?c _ = Done _ |- _ =>
             let E := fresh "E" in
             destruct c as [? | ? ? | ] eqn:E; try discriminate H;
             cbn [vm_bind] in H
         | H : Pop _ = Done _ |- _ =>
             apply Pop_inv in H; destruct H as [-> H]
         | H : shrink _ _ = Done _ |- _ =>
             apply shrink_inv in H; destruct H as [-> H]
         | H : Done _ = Done _ |- _ => injection H as H; subst
         | H : (_, _) = (_, _) |- _ => injection H as H; subst
         | H : match ?v with
               | Value.Int _ => _ | Value.Bool _ => _ | Value.Str _ => _
               | Value.Addr _ => _ | Value.Proto _ => _
               end = Done _ |- _ => destruct v; try discriminate H
         end.

Ltac heights :=
  cbn [stack_ Push set_stack set_pc set_cout set_cin prog_ pc_ cout cin] in *;
  repeat match goal with
         | H : stack_ _ = _ |- _ => rewrite H in *; clear H
         | H : ?s = (_ ++ _)%list |- _ => rewrite H in *; clear H
         end;
  repeat rewrite length_app in *; cbn [List.length] in *; try lia.

Lemma binop_height (f : Z -> Z -> vm_result Value.t) (st st' : Interp) :
  binop f st = Done st' ->
  S (List.length (stack_ st')) = List.length (stack_ st).
Proof.
  unfold binop, PopInt. intros H. invert_steps. heights.
Qed.

Lemma invoke_height (f : RuntimeFn) (st st' : Interp) :
  invoke f st = Done st' ->
  List.length (stack_ st') = S (List.length (stack_ st)).
Proof.
  destruct f; cbn [invoke]; unfold PrintInt, PrintBool, ReadInt; intros H.
  - invert_steps. heights.
  - destruct (extract_int64 (cin st)) as [[val |] inp];
      cbv beta iota in H; [ | discriminate H ]; invert_steps; heights.
  - invert_steps. heights.
Qed.

Lemma exec_CALL_height (st st' : Interp) :
  exec_CALL st = Done st' ->
  List.length (stack_ st') = List.length (stack_ st).
Proof.
  unfold exec_CALL. intros H. invert_steps.
  - heights.
  - apply invoke_height in H. heights.
Qed.

Lemma exec_RET_height (st st' : Interp) :
  exec_RET st = Done st' ->
  let (depth, p1) := Read_unsigned (prog_ st) (pc_ st) in
  let (nargs, _) := Read_unsigned (prog_ st) p1 in
  List.length (stack_ st') + depth + nargs + 1 = List.length (stack_ st).
Proof.
  unfold exec_RET, Read, PopAddr. intros H.
  destruct (Read_unsigned (prog_ st) (pc_ st)) as [depth p1].
  cbn [prog_ pc_ set_pc] in H.
  destruct (Read_unsigned (prog_ st) p1) as [nargs p2].
  invert_steps. heights.
Qed.

(** The change of the stack height by one instruction: a push or PEEK adds
    a slot; POP, a binary operator and JUMP_FALSE remove one; NEG, NOT,
    JUMP and STOP keep the height, and so does CALL, which replaces the
    callee by the return address or by what the primitive pushes; RET
    removes the return address and as many slots as its operands say;
    PUSH_STRING never completes. *)
Theorem step_stack_height :
  forall (st st' : Interp) (halt : bool),
    step st = Done (halt, st') ->
    let h := List.length (stack_ st) in
    let h' := List.length (stack_ st') in
    let (op, p0) := Read_Opcode (prog_ st) (pc_ st) in
    match op with
    | Opcode.PUSH_FUNC | Opcode.PUSH_PROTO | Opcode.PEEK
    | Opcode.PUSH_INT | Opcode.PUSH_BOOL => h' = S h
    | Opcode.POP | Opcode.JUMP_FALSE
    | Opcode.ADD | Opcode.SUB | Opcode.MUL | Opcode.DIV | Opcode.MOD
    | Opcode.EQ | Opcode.NEQ | Opcode.LEQ | Opcode.GREQ
    | Opcode.LE | Opcode.GR => S h' = h
    | Opcode.NEG | Opcode.NOT | Opcode.JUMP | Opcode.STOP
    | Opcode.CALL => h' = h
    | Opcode.RET =>
        let (depth, p1) := Read_unsigned (prog_ st) p0 in
        let (nargs, _) := Read_unsigned (prog_ st) p1 in
        h' + depth + nargs + 1 = h
    | Opcode.PUSH_STRING => False
    end.
Proof.
  intros st st' halt H h h'. subst h h'.
  unfold step, Read in H.
  destruct (Read_Opcode (prog_ st) (pc_ st)) as [op p0].
  destruct op.
  all: try discriminate H.
  all: try (invert_steps;
            match goal with
            | E : binop _ _ = Done _ |- _ => apply binop_height in E; exact E
            end).
  - destruct (Read_size_t _ _). invert_steps. heights.
  - destruct (Read_RuntimeFn _ _). invert_steps. heights.
  - destruct (Read_unsigned _ _). invert_steps. heights.
  - invert_steps. heights.
  - invert_steps.
    match goal with
    | E : exec_CALL _ = Done _ |- _ => apply exec_CALL_height in E; exact E
    end.
  - unfold PopInt in H. invert_steps. heights.
  - unfold PopBool in H. invert_steps. heights.
  - invert_steps.
    match goal with
    | E : exec_RET _ = Done _ |- _ => apply exec_RET_height in E; exact E
    end.
  - invert_steps.
    match goal with
    | E : context [Read_size_t ?p ?n] |- _ => destruct (Read_size_t p n)
    end.
    invert_steps.
    match goal with
    | |- context [if ?b then _ else _] => destruct b
    end; heights.
  - destruct (Read_size_t _ _). invert_steps. heights.
  - destruct (Read_int64_t _ _). invert_steps. heights.
  - destruct (Read_bool _ _). invert_steps. heights.
  - invert_steps. heights.
Qed.

Lemma step_stack_height_witness :
  step (mkInterp sub_program 0 [Value.Int 10; Value.Int 3] "" (stdin ""))
  = Done (false, mkInterp sub_program 1 [Value.Int 7] "" (stdin ""))
  /\ S (List.length [Value.Int 7])
     = List.length [Value.Int 10; Value.Int 3].
Proof.
  assert (H : step (mkInterp sub_program 0 [Value.Int 10; Value.Int 3] "" (stdin ""))
              = Done (false, mkInterp sub_program 1 [Value.Int 7] "" (stdin "")))
    by reflexivity.
  split; [ exact H | exact (step_stack_height _ _ _ H) ].
Defined.

(* ------------------------------------------------------------------------- *)
(** * What a run leaves alone *)

Lemma append_nil_r (s : string) : (s ++ "")%string = s.
Proof. induction s as [| c s IH]; cbn; congruence. Qed.

Lemma later_refl (st : Interp) : later st st.
Proof.
  repeat split; [ exists ""%string; symmetry; apply append_nil_r | exists [] ];
    reflexivity.
Qed.

Lemma later_trans (a b c : Interp) : later a b -> later b c -> later a c.
Proof.
  intros (P1 & [t1 O1] & [k1 I1]) (P2 & [t2 O2] & [k2 I2]).
  repeat split.
  - congruence.
  - exists (t1 ++ t2)%string. rewrite O2, O1. apply append_assoc_string.
  - exists (k1 ++ k2)%list. rewrite I1, I2. apply app_assoc.
Qed.

(** The program and the two streams of a state. *)
Lemma later_of_io (st st' : Interp) :
  (prog_ st', cout st', cin st') = (prog_ st, cout st, cin st) ->
  later st st'.
Proof.
  intros [= P O I]. repeat split.
  - exact P.
  - exists ""%string. rewrite O. symmetry. apply append_nil_r.
  - exists []. rewrite I. reflexivity.
Qed.

Lemma Pop_io (st st' : Interp) (v : Value.t) :
  Pop st = Done (v, st') ->
  (prog_ st', cout st', cin st') = (prog_ st, cout st, cin st).
Proof.
  unfold Pop. destruct (List.rev (stack_ st)); [ discriminate | ].
  intros [= _ <-]. reflexivity.
Qed.

Lemma shrink_io (k : nat) (st st' : Interp) :
  shrink k st = Done st' ->
  (prog_ st', cout st', cin st') = (prog_ st, cout st, cin st).
Proof.
  unfold shrink. destruct (k <=? _); [ | discriminate ].
  intros [= <-]. reflexivity.
Qed.

Ltac invert_io :=
  repeat match goal with
         | H : @vm_bind (_ * _) _ ?c _ = Done _ |- _ =>
             let E := fresh "E" in
             destruct c as [[? ?] | ? ? | ] eqn:E; try discriminate H;
             cbn [vm_bind] in H
         | H : vm_bind ?c _ = Done _ |- _ =>
             let E := fresh "E" in
             destruct c as [? | ? ? | ] eqn:E; try discriminate H;
             cbn [vm_bind] in H
         | H : Pop _ = Done _ |- _ => apply Pop_io in H
         | H : shrink _ _ = Done _ |- _ => apply shrink_io in H
         | H : Done _ = Done _ |- _ => injection H as H; subst
         | H : (_, _) = (_, _) :> (bool * Interp) |- _ =>
             injection H as H; subst
         | H : match ?v with
               | Value.Int _ => _ | Value.Bool _ => _ | Value.Str _ => _
               | Value.Addr _ => _ | Value.Proto _ => _
               end = Done _ |- _ => destruct v; try discriminate H
         end.

Ltac same_io :=
  apply later_of_io;
  repeat match goal with
         | |- context [if ?b then _ else _] => destruct b
         end;
  cbn [Push set_stack set_pc set_cout set_cin prog_ pc_ stack_ cout cin] in *;
  congruence.

Lemma span_app (p : ascii -> bool) (l : list ascii) :
  l = (fst (span p l) ++ snd (span p l))%list.
Proof.
  induction l as [| c l IH]; [ reflexivity | ].
  cbn [span]. destruct (p c); [ | reflexivity ].
  destruct (span p l) as [run rest]. cbn [fst snd] in *.
  rewrite IH at 1. reflexivity.
Qed.

(** An extraction takes characters from the front of the input and puts
    none back. *)
Lemma extract_int64_takes (s : istream) :
  exists taken : list ascii,
    unread_input s
    = (taken ++ unread_input (snd (extract_int64 s)))%list.
Proof.
  unfold extract_int64.
  destruct (cin_eofbit s || cin_failbit s); [ exists []; reflexivity | ].
  pose proof (span_app isspace (unread_input s)) as Hs.
  destruct (snd (span isspace (unread_input s))) as [| c rest].
  - exists (unread_input s). cbn [snd unread_input]. symmetry. apply app_nil_r.
  - cbv zeta.
    set (field := if (c =? "-")%char || (c =? "+")%char
                  then rest else c :: rest).
    assert (Hf : exists sign, (c :: rest = sign ++ field)%list).
    { subst field. destruct ((c =? "-")%char || (c =? "+")%char);
        [ exists [c] | exists [] ]; reflexivity. }
    destruct Hf as [sign Hf].
    pose proof (span_app isdigit field) as Hd.
    destruct (span isdigit field) as [digits rest'].
    cbn [fst snd] in Hd.
    exists (fst (span isspace (unread_input s)) ++ sign ++ digits)%list.
    assert (Hall : unread_input s
                   = ((fst (span isspace (unread_input s)) ++ sign ++ digits)
                        ++ rest')%list).
    { rewrite Hs at 1. rewrite Hf, Hd.
      repeat rewrite <- app_assoc. reflexivity. }
    destruct digits as [| d digits]; [ exact Hall | ].
    repeat match goal with
           | |- context [if ?b then _ else _] => destruct b
           end; exact Hall.
Qed.

Lemma invoke_later (f : RuntimeFn) (st st' : Interp) :
  invoke f st = Done st' -> later st st'.
Proof.
  destruct f; cbn [invoke]; unfold PrintInt, PrintBool, ReadInt; intros H.
  - invert_io. repeat split; [ eexists; reflexivity | exists []; reflexivity ].
  - pose proof (extract_int64_takes (cin st)) as [taken Ht].
    destruct (extract_int64 (cin st)) as [[val |] inp];
      cbv beta iota in H; [ | discriminate H ].
    injection H as <-. cbn [snd] in Ht. repeat split.
    + exists ""%string. symmetry. apply append_nil_r.
    + exists taken. exact Ht.
  - invert_io. repeat split; [ eexists; reflexivity | exists []; reflexivity ].
Qed.

Lemma step_later (st st' : Interp) (halt : bool) :
  step st = Done (halt, st') -> later st st'.
Proof.
  intros H. unfold step, Read in H.
  destruct (Read_Opcode (prog_ st) (pc_ st)) as [op p0].
  destruct op; try discriminate H;
    unfold binop, exec_CALL, exec_RET, PopInt, PopBool, PopAddr, truth,
      Read in H;
    cbn [prog_ pc_ set_pc] in H;
    repeat match type of H with
           | context [Read_size_t ?p ?n] => destruct (Read_size_t p n)
           | context [Read_unsigned ?p ?n] => destruct (Read_unsigned p n)
           | context [Read_int64_t ?p ?n] => destruct (Read_int64_t p n)
           | context [Read_bool ?p ?n] => destruct (Read_bool p n)
           | context [Read_RuntimeFn ?p ?n] => destruct (Read_RuntimeFn p n)
           end;
    cbn [prog_ pc_ set_pc] in H;
    invert_io;
    repeat match goal with
           | H : context [Read_size_t ?p ?n] |- _ => destruct (Read_size_t p n)
           end;
    invert_io;
    try same_io.
  apply invoke_later in E.
  eapply later_trans; [ | exact E ]. same_io.
Qed.

(** A run never alters its program, never takes back output it has written
    and never puts input back: at the STOP that ends it the program is the
    same, the output starts with the output at the start, and the
    characters of the input left unread are a tail of those at the
    start. *)
Theorem Run_keeps_program_and_output :
  forall (fuel : nat) (st st' : Interp),
    Run fuel st = Done (Some st') ->
    prog_ st' = prog_ st /\
    (exists text : string, cout st' = (cout st ++ text)%string) /\
    (exists taken : list ascii,
        unread_input (cin st) = (taken ++ unread_input (cin st'))%list).
Proof.
  intros fuel st st' H. change (later st st').
  revert st H. induction fuel as [| fuel IH]; intros st H;
    [ discriminate H | ].
  cbn [Run] in H.
  destruct (step st) as [[stop s1] | |] eqn:E; try discriminate H.
  cbn [vm_bind] in H. apply step_later in E.
  destruct stop.
  - injection H as <-. exact E.
  - eapply later_trans; [ exact E | apply IH, H ].
Qed.

(** A run that reads a number and prints it, and a run that finds the
    input exhausted. *)
Lemma Run_keeps_program_and_output_witness :
  Run 10 (mkInterp echo_program 0 [] "n = " (stdin "5 6"))
  = Done (Some (mkInterp echo_program 7 [Value.Int 5; Value.Int 5]
                  "n = 5" (stdin " 6")))
  /\ (exists text : string, "n = 5" = ("n = " ++ text)%string)
  /\ (exists taken : list ascii,
         list_ascii_of_string "5 6"
         = (taken ++ list_ascii_of_string " 6")%list)
  /\ Run 10 (mkInterp echo_program 0 [] "n = " (stdin "")) = UB.
Proof.
  assert (H : Run 10 (mkInterp echo_program 0 [] "n = " (stdin "5 6"))
              = Done (Some (mkInterp echo_program 7
                              [Value.Int 5; Value.Int 5] "n = 5"
                              (stdin " 6"))))
    by (vm_compute; reflexivity).
  split; [ exact H | ].
  split; [ exact (proj1 (proj2 (Run_keeps_program_and_output _ _ _ H))) | ].
  split; [ exact (proj2 (proj2 (Run_keeps_program_and_output _ _ _ H))) | ].
  vm_compute. reflexivity.
Defined.

(* ------------------------------------------------------------------------- *)
(** * What the instructions compute *)

(** A binary operator takes its right operand from the top of the stack and
    its left operand from the slot below, and puts the result in their
    place; the instruction has no defined behaviour where the C++ operator
    has none. *)
Theorem binary_operator_operands :
  forall (prog : Program) (pc p1 : nat) (out : string) (inp : istream)
         (below : list Value.t) (op : Opcode.t) (lhs rhs : Z),
    Read_Opcode prog pc = (op, p1) ->
    In op binary_opcodes ->
    step (mkInterp prog pc (below ++ [Value.Int lhs; Value.Int rhs])%list
            out inp)
    = match binary_result op lhs rhs with
      | Some v => Done (false, mkInterp prog p1 (below ++ [v])%list out inp)
      | None => UB
      end.
Proof.
  intros prog pc p1 out inp below op lhs rhs Hop Hin.
  unfold step, Read. cbn [prog_ pc_]. rewrite Hop.
  replace (below ++ [Value.Int lhs; Value.Int rhs])%list
    with ((below ++ [Value.Int lhs]) ++ [Value.Int rhs])%list
    by (rewrite <- app_assoc; reflexivity).
  assert (B : forall f,
             binop f (set_pc (mkInterp prog pc
                        ((below ++ [Value.Int lhs]) ++ [Value.Int rhs])%list
                        out inp) p1)
             = do* v := f lhs rhs in
               Done (mkInterp prog p1 (below ++ [v])%list out inp)).
  { intros f. unfold binop, PopInt, set_pc. cbn [prog_ pc_ stack_ cout cin].
    rewrite Pop_top. cbn [vm_bind]. rewrite Pop_top. cbn [vm_bind].
    reflexivity. }
  unfold binary_opcodes in Hin. cbn [In] in Hin.
  repeat (destruct Hin as [<- | Hin]); try contradiction;
    rewrite B; cbn [binary_result]; unfold divide, arith, compare, int64;
    cbn [vm_bind];
    repeat match goal with
           | |- context [if ?b then _ else _] => destruct b; cbn [negb vm_bind]
           end;
    reflexivity.
Qed.

Lemma binary_operator_operands_witness :
  step (mkInterp sub_program 0 [Value.Int 10; Value.Int 3] "" (stdin ""))
  = Done (false, mkInterp sub_program 1 [Value.Int 7] "" (stdin "")).
Proof.
  exact (binary_operator_operands sub_program 0 1 "" (stdin "") [] Opcode.SUB 10 3
           eq_refl (or_intror (or_introl eq_refl))).
Defined.

Lemma nth_error_rev_above (below above : list Value.t) (v : Value.t) :
  nth_error (List.rev (below ++ v :: above)) (List.length above) = Some v.
Proof.
  rewrite rev_app_distr. cbn [List.rev]. rewrite <- app_assoc.
  rewrite nth_error_app2 by (rewrite length_rev; lia).
  rewrite length_rev, Nat.sub_diag. reflexivity.
Qed.

(** [PEEK idx] pushes a copy of the slot that has [idx] slots above it, and
    leaves the others in place; on a stack of [idx] slots or fewer there is
    no such slot and the instruction has no defined behaviour. *)
Theorem PEEK_copies_slot :
  forall (prog : Program) (pc p1 p2 idx : nat) (out : string)
         (inp : istream),
    Read_Opcode prog pc = (Opcode.PEEK, p1) ->
    Read_unsigned prog p1 = (idx, p2) ->
    (forall (below above : list Value.t) (v : Value.t),
        List.length above = idx ->
        step (mkInterp prog pc (below ++ v :: above)%list out inp)
        = Done (false,
                mkInterp prog p2 ((below ++ v :: above) ++ [v])%list
                  out inp))
    /\
    (forall stack : list Value.t,
        List.length stack <= idx ->
        step (mkInterp prog pc stack out inp) = UB).
Proof.
  intros prog pc p1 p2 idx out inp Hop Hidx. split.
  - intros below above v <-.
    unfold step, Read. cbn [prog_ pc_ set_pc]. rewrite Hop.
    cbn [prog_ pc_ set_pc]. rewrite Hidx. unfold from_top.
    cbn [stack_ set_pc]. rewrite nth_error_rev_above. reflexivity.
  - intros stack Hlen.
    unfold step, Read. cbn [prog_ pc_ set_pc]. rewrite Hop.
    cbn [prog_ pc_ set_pc]. rewrite Hidx. unfold from_top.
    cbn [stack_ set_pc].
    replace (nth_error (List.rev stack) idx) with (@None Value.t);
      [ reflexivity | ].
    symmetry. apply nth_error_None. rewrite length_rev. exact Hlen.
Qed.

Lemma PEEK_copies_slot_witness :
  step (mkInterp peek_program 0 [Value.Int 1; Value.Int 2; Value.Int 3] "" (stdin ""))
  = Done (false,
          mkInterp peek_program 2
            [Value.Int 1; Value.Int 2; Value.Int 3; Value.Int 2] "" (stdin ""))
  /\ step (mkInterp peek_program 0 [Value.Int 3] "" (stdin "")) = UB.
Proof.
  pose proof (PEEK_copies_slot peek_program 0 1 2 1 "" (stdin "") eq_refl eq_refl)
    as [Hin Hout].
  split.
  - exact (Hin [Value.Int 1] [Value.Int 3] (Value.Int 2) eq_refl).
  - apply Hout. cbn. lia.
Defined.
